(** * ordered_map.h: an insertion-ordered associative container

    [ordered_map<Key, T, Index, Compare, Allocator>] keeps two standard maps:
    [keys_], a [std::map<Key, Index>] giving every live key its sequence
    number, and [map_], a [std::map<Key, T, compare_helper>] whose comparator
    orders keys by the sequence numbers it reads from [keys_] through a
    pointer.  [index_] is the counter the sequence numbers are drawn from.

    The embedding follows the header member by member.  The template
    defaults are fixed: [Index = uint64_t] (a [Z] with its wrap-around) and
    [Compare = std::less<Index>].  [Key] and [T] stay generic. *)

From stdpp Require Import gmap strings list fin_maps sorting.

(** ** Index = uint64_t, Compare = std::less<Index> *)

Abbreviation Index := Z.
Definition Index_modulus : Z := (2 ^ 64)%Z.

(** [index_++] on an unsigned 64-bit counter. *)
Definition Index_succ (i : Index) : Index := ((i + 1) `mod` Index_modulus)%Z.

Definition Compare (a b : Index) : bool := (a <? b)%Z.

(** ** compare_helper

    [operator()] looks both keys up in [*keys_] and dereferences the two
    iterators.  Dereferencing [end()] is undefined behaviour: the embedding
    gives [None] there, and every operation that calls the comparator
    propagates it. *)

Section compare_helper.
Context {Key : Type} `{Countable Key}.

Definition compare_helper (keys_ : gmap Key Index) (lhs rhs : Key)
  : option bool :=
  lhs_ ← keys_ !! lhs;
  rhs_ ← keys_ !! rhs;
  Some (Compare lhs_ rhs_).
End compare_helper.

(** ** std::map<Key, T, Cmp> as used for [map_]

    The standard library is not part of the header.  [map_] is modelled by
    its observable state, the entries in comparator order, and each member
    function by its effect on that sequence; an iterator is a position in
    the sequence and [end()] is its length.

    The member functions are composed as in the reference implementation:
    [find] and [at] are [lower_bound] followed by one comparison of the key
    with the entry found, [operator[]] and [insert] place the entry at the
    lower bound of its key, [erase(key)] erases [equal_range(key)].  The
    descent of the balanced tree is a scan from [begin()] here.  That
    changes how many comparisons are made, not what is compared: the key
    given by the caller against keys that are stored, at least once when
    anything is stored.  The comparator may fail ([None]); a search that
    calls it fails with it. *)

Inductive exn := out_of_range.

Module std_map.
Section std_map.
Context {Key T : Type} (comp : Key → Key → option bool).

Abbreviation iterator := nat.

(** First position whose key is not ordered before [k]. *)
Fixpoint lower_bound (m : list (Key * T)) (k : Key) : option iterator :=
  match m with
  | [] => Some 0
  | (x, _) :: m' =>
      b ← comp x k;
      if b : bool then S <$> lower_bound m' k else Some 0
  end.

(** First position whose key is ordered after [k]. *)
Fixpoint upper_bound (m : list (Key * T)) (k : Key) : option iterator :=
  match m with
  | [] => Some 0
  | (x, _) :: m' =>
      b ← comp k x;
      if b : bool then Some 0 else S <$> upper_bound m' k
  end.

Definition equal_range (m : list (Key * T)) (k : Key)
  : option (iterator * iterator) :=
  lo ← lower_bound m k;
  hi ← upper_bound m k;
  Some (lo, hi).

Definition find (m : list (Key * T)) (k : Key) : option iterator :=
  j ← lower_bound m k;
  match m !! j with
  | None => Some (length m)
  | Some (x, _) => b ← comp k x; Some (if b : bool then length m else j)
  end.

Definition count (m : list (Key * T)) (k : Key) : option nat :=
  j ← find m k;
  Some (if decide (j = length m) then 0 else 1).

(** [at]: the mapped value, or the [std::out_of_range] exception. *)
Definition at_ (m : list (Key * T)) (k : Key) : option (exn + T) :=
  i ← lower_bound m k;
  match m !! i with
  | None => Some (inl out_of_range)
  | Some (x, v) =>
      b ← comp k x; Some (if b : bool then inl out_of_range else inr v)
  end.

(** [insert(value)] and [emplace(value)]: the entry goes in front of the
    lower bound of its key unless an equivalent key is already there. *)
Definition insert (m : list (Key * T)) (value : Key * T)
  : option (list (Key * T) * (iterator * bool)) :=
  i ← lower_bound m value.1;
  match m !! i with
  | None => Some (m ++ [value], (i, true))
  | Some (x, _) =>
      b ← comp value.1 x;
      Some (if b : bool
            then (take i m ++ value :: drop i m, (i, true))
            else (m, (i, false)))
  end.

(** [insert(hint, value)], [emplace_hint]: the hint must be an iterator
    of the container; it does not change the outcome. *)
Definition insert_hint (m : list (Key * T)) (hint : iterator)
    (value : Key * T) : option (list (Key * T) * iterator) :=
  if decide (hint ≤ length m)
  then '(m', (i, _)) ← insert m value; Some (m', i)
  else None.

(** [insert(first, last)] and [insert(ilist)]. *)
Fixpoint insert_range (m : list (Key * T)) (l : list (Key * T))
  : option (list (Key * T)) :=
  match l with
  | [] => Some m
  | value :: l' => '(m', _) ← insert m value; insert_range m' l'
  end.

(** [operator[]] with value-initialisation of a missing entry. *)
Definition subscript (T_default : T) (m : list (Key * T)) (k : Key)
  : option (list (Key * T) * T) :=
  '(m', (i, _)) ← insert m (k, T_default);
  v ← snd <$> m' !! i;
  Some (m', v).

(** [erase(key)]: removes [equal_range(key)], returns how many went. *)
Definition erase (m : list (Key * T)) (k : Key)
  : option (list (Key * T) * nat) :=
  '(lo, hi) ← equal_range m k;
  Some (take lo m ++ drop hi m, hi - lo).

(** [erase(first, last)]: no comparison is made. *)
Definition erase_range (m : list (Key * T)) (first last : iterator)
  : list (Key * T) * iterator :=
  (take first m ++ drop last m, first).

Definition erase_pos (m : list (Key * T)) (pos : iterator)
  : list (Key * T) * iterator :=
  erase_range m pos (S pos).
End std_map.
End std_map.

(** ** std::map<Key, Index> as used for [keys_]

    [keys_] has the default comparator on keys; only its lookups, its
    non-overwriting [insert], [erase], [clear] and [size] are used. *)

Section KeyContainer.
Context {Key : Type} `{Countable Key}.

Definition KeyContainer_insert (p : Key * Index) (m : gmap Key Index)
  : gmap Key Index :=
  match m !! p.1 with
  | Some _ => m
  | None => <[p.1 := p.2]> m
  end.
End KeyContainer.

(** ** class ordered_map *)

Module ordered_map.
Section ordered_map.
Context {Key : Type} `{Countable Key} {T : Type}.
(** [Key{}] and [T{}], the value-initialised key and mapped value. *)
Variable Key_default : Key.
Variable T_default : T.

(** The data members.  [compare_] and the copy of it inside [map_] both
    hold [&keys_] from the constructor on, and no member function other
    than [swap] touches them: within one object every comparison made by
    [map_] reads the object's own [keys_] as it is at that moment.  (The
    pointers are explicit in [Module two_maps] below, where [swap] lives.) *)
Record t := mk {
  keys_ : gmap Key Index;
  map_ : list (Key * T);
  index_ : Index
}.

Abbreviation iterator := nat.

(** [ordered_map()] *)
Definition new : t := {| keys_ := ∅; map_ := []; index_ := 0%Z |}.

Definition with_map_ (s : t) (m : list (Key * T)) : t :=
  {| keys_ := keys_ s; map_ := m; index_ := index_ s |}.

(** The comparator [map_] carries. *)
Definition comp (s : t) : Key → Key → option bool := compare_helper (keys_ s).

(** [keys_.insert({key, index_++})] *)
Definition add_index (key : Key) (s : t) : t :=
  {| keys_ := KeyContainer_insert (key, index_ s) (keys_ s);
     map_ := map_ s;
     index_ := Index_succ (index_ s) |}.

(** [keys_.erase(key)] *)
Definition remove_index (key : Key) (s : t) : t :=
  {| keys_ := delete key (keys_ s); map_ := map_ s; index_ := index_ s |}.

Definition at_ (s : t) (key : Key) : option (exn + T) :=
  std_map.at_ (comp s) (map_ s) key.

Definition subscript (key : Key) (s : t) : option (t * T) :=
  let s := add_index key s in
  '(m, v) ← std_map.subscript (comp s) T_default (map_ s) key;
  Some (with_map_ s m, v).

(** [begin()..end()]: the entries in iteration order. *)
Definition entries (s : t) : list (Key * T) := map_ s.

(** [keys()]: a vector of [keys_.size()] value-initialised keys, then
    [std::transform] writes the first component of every entry of
    [begin()..end()] from its start on.  Writing past the vector's end is
    undefined. *)
Definition keys (s : t) : option (list Key) :=
  let k := replicate (base.size (keys_ s)) Key_default in
  let firsts := (entries s).*1 in
  if decide (length firsts ≤ length k)
  then Some (firsts ++ drop (length firsts) k)
  else None.

Definition empty (s : t) : bool := bool_decide (map_ s = []).
Definition size (s : t) : nat := length (map_ s).

Definition clear (s : t) : t :=
  {| keys_ := ∅; map_ := []; index_ := index_ s |}.

Definition insert (value : Key * T) (s : t)
  : option (t * (iterator * bool)) :=
  let s := add_index value.1 s in
  '(m, r) ← std_map.insert (comp s) (map_ s) value;
  Some (with_map_ s m, r).

Definition insert_hint (hint : iterator) (value : Key * T) (s : t)
  : option (t * iterator) :=
  let s := add_index value.1 s in
  '(m, r) ← std_map.insert_hint (comp s) (map_ s) hint value;
  Some (with_map_ s m, r).

(** [insert(first, last)], [insert(ilist)]: every [add_index] runs before
    [map_] sees the first value. *)
Definition insert_range (l : list (Key * T)) (s : t) : option t :=
  let s := foldl (λ s value, add_index value.1 s) s l in
  m ← std_map.insert_range (comp s) (map_ s) l;
  Some (with_map_ s m).

Definition emplace (value : Key * T) (s : t)
  : option (t * (iterator * bool)) :=
  let s := add_index value.1 s in
  '(m, r) ← std_map.insert (comp s) (map_ s) value;
  Some (with_map_ s m, r).

Definition emplace_hint (hint : iterator) (value : Key * T) (s : t)
  : option (t * iterator) :=
  let s := add_index value.1 s in
  '(m, r) ← std_map.insert_hint (comp s) (map_ s) hint value;
  Some (with_map_ s m, r).

(** [erase(pos)]: [pos->first] needs a dereferenceable iterator. *)
Definition erase_pos (pos : iterator) (s : t) : option (t * iterator) :=
  '(key, _) ← map_ s !! pos;
  let s := remove_index key s in
  let '(m, r) := std_map.erase_pos (map_ s) pos in
  Some (with_map_ s m, r).

(** [erase(first, last)]: the loop walks from [first] until it meets
    [last], dereferencing on the way. *)
Definition erase_range (first last : iterator) (s : t)
  : option (t * iterator) :=
  if decide (first ≤ last ≤ length (map_ s))
  then
    let erased := (take (last - first) (drop first (map_ s))).*1 in
    let s := foldl (λ s key, remove_index key s) s erased in
    let '(m, r) := std_map.erase_range (map_ s) first last in
    Some (with_map_ s m, r)
  else None.

(** [erase(key)] *)
Definition erase (key : Key) (s : t) : option (t * nat) :=
  '(m, res) ← std_map.erase (comp s) (map_ s) key;
  let s := with_map_ s m in
  Some (if decide (0 < res) then remove_index key s else s, res).

Definition count (s : t) (key : Key) : option nat :=
  std_map.count (comp s) (map_ s) key.
Definition find (s : t) (key : Key) : option iterator :=
  std_map.find (comp s) (map_ s) key.
Definition equal_range (s : t) (key : Key) : option (iterator * iterator) :=
  std_map.equal_range (comp s) (map_ s) key.
Definition lower_bound (s : t) (key : Key) : option iterator :=
  std_map.lower_bound (comp s) (map_ s) key.
Definition upper_bound (s : t) (key : Key) : option iterator :=
  std_map.upper_bound (comp s) (map_ s) key.

(** [ordered_map(first, last)] and [ordered_map(initializer_list)]:
    one [insert] per element. *)
Fixpoint insert_each (l : list (Key * T)) (s : t) : option t :=
  match l with
  | [] => Some s
  | value :: l' => '(s', _) ← insert value s; insert_each l' s'
  end.

Definition from_range (l : list (Key * T)) : option t := insert_each l new.

(** *** Sequences of public calls

    A caller's use of one container is a list of calls.  A call whose
    behaviour is undefined ends the run with [None]; [at] throwing
    [std::out_of_range] leaves the container as it was and the caller
    goes on. *)
Inductive op :=
| Insert (value : Key * T)
| InsertHint (hint : iterator) (value : Key * T)
| InsertRange (l : list (Key * T))
| Emplace (value : Key * T)
| EmplaceHint (hint : iterator) (value : Key * T)
| Subscript (key : Key)
| ErasePos (pos : iterator)
| EraseRange (first last : iterator)
| Erase (key : Key)
| Clear
| At (key : Key)
| Find (key : Key)
| Count (key : Key)
| EqualRange (key : Key)
| LowerBound (key : Key)
| UpperBound (key : Key)
| Keys.

Definition step (o : op) (s : t) : option t :=
  match o with
  | Insert value => fst <$> insert value s
  | InsertHint hint value => fst <$> insert_hint hint value s
  | InsertRange l => insert_range l s
  | Emplace value => fst <$> emplace value s
  | EmplaceHint hint value => fst <$> emplace_hint hint value s
  | Subscript key => fst <$> subscript key s
  | ErasePos pos => fst <$> erase_pos pos s
  | EraseRange first last => fst <$> erase_range first last s
  | Erase key => fst <$> erase key s
  | Clear => Some (clear s)
  | At key => _ ← at_ s key; Some s
  | Find key => _ ← find s key; Some s
  | Count key => _ ← count s key; Some s
  | EqualRange key => _ ← equal_range s key; Some s
  | LowerBound key => _ ← lower_bound s key; Some s
  | UpperBound key => _ ← upper_bound s key; Some s
  | Keys => _ ← keys s; Some s
  end.

Fixpoint run (ops : list op) (s : t) : option t :=
  match ops with
  | [] => Some s
  | o :: ops' => s' ← step o s; run ops' s'
  end.

(** How often a call evaluates [index_++]. *)
Definition add_index_calls (o : op) : nat :=
  match o with
  | Insert _ | InsertHint _ _ | Emplace _ | EmplaceHint _ _ | Subscript _ => 1
  | InsertRange l => length l
  | _ => 0
  end.

Fixpoint total_add_index_calls (ops : list op) : nat :=
  match ops with
  | [] => 0
  | o :: ops' => add_index_calls o + total_add_index_calls ops'
  end.
End ordered_map.
End ordered_map.

Arguments ordered_map.t Key {_ _} T.
Arguments ordered_map.op : clear implicits.

(** ** Two containers in memory: [swap]

    [swap] exchanges the three members [map_], [compare_] and [keys_] of
    two objects, so the pointers held by the comparators have to be
    spelled out.  An object lives at an address; the address of its
    [keys_] member is identified with it.  [compare_] is the pointer held
    by the member [compare_], [map_compare] the pointer held by the copy
    of the comparator inside [map_].  [std::swap] of two [std::map]s
    exchanges their comparators with their entries. *)

Module two_maps.
Section two_maps.
Context {Key : Type} `{Countable Key} {T : Type}.

Abbreviation address := nat.

Record object := mk {
  keys_ : gmap Key Index;
  compare_ : address;
  map_compare : address;
  map_ : list (Key * T);
  index_ : Index
}.

Abbreviation memory := (gmap nat object).

(** [ordered_map()] run at address [p]:
    [keys_{}, compare_{&keys_}, map_{compare_}]. *)
Definition construct (p : address) (h : memory) : memory :=
  <[p := {| keys_ := ∅; compare_ := p; map_compare := p; map_ := [];
            index_ := 0%Z |}]> h.

(** The comparator [map_] of [o] calls: it reads the ledger its pointer
    leads to. *)
Definition comp (h : memory) (o : object) (lhs rhs : Key) : option bool :=
  target ← h !! map_compare o;
  compare_helper (keys_ target) lhs rhs.

Definition add_index (key : Key) (o : object) : object :=
  {| keys_ := KeyContainer_insert (key, index_ o) (keys_ o);
     compare_ := compare_ o; map_compare := map_compare o;
     map_ := map_ o; index_ := Index_succ (index_ o) |}.

Definition with_map_ (o : object) (m : list (Key * T)) : object :=
  {| keys_ := keys_ o; compare_ := compare_ o;
     map_compare := map_compare o; map_ := m; index_ := index_ o |}.

(** [p->insert(value)] *)
Definition insert (p : address) (value : Key * T) (h : memory)
  : option (memory * (nat * bool)) :=
  o ← h !! p;
  let o := add_index value.1 o in
  let h := <[p := o]> h in
  '(m, r) ← std_map.insert (comp h o) (map_ o) value;
  Some (<[p := with_map_ o m]> h, r).

(** [p->find(key)] *)
Definition find (p : address) (key : Key) (h : memory) : option nat :=
  o ← h !! p;
  std_map.find (comp h o) (map_ o) key.

(** [swap(other)] called on the object at [p], [other] being the object
    at [q]: [std::swap] of [map_], of [compare_] and of [keys_]; [index_]
    is not mentioned and stays. *)
Definition swap (p q : address) (h : memory) : option memory :=
  a ← h !! p;
  b ← h !! q;
  let a' := {| keys_ := keys_ b; compare_ := compare_ b;
               map_compare := map_compare b; map_ := map_ b;
               index_ := index_ a |} in
  let b' := {| keys_ := keys_ a; compare_ := compare_ a;
               map_compare := map_compare a; map_ := map_ a;
               index_ := index_ b |} in
  Some (if decide (p = q) then h else <[q := b']> (<[p := a']> h)).

(** The object at [p] seen on its own. *)
Definition view (o : object) : ordered_map.t Key T :=
  ordered_map.mk (keys_ o) (map_ o) (index_ o).

(** Both comparators of the object at [p] point at its own ledger. *)
Definition own_ledger (p : address) (h : memory) : Prop :=
  compare_ <$> h !! p = Some p ∧ map_compare <$> h !! p = Some p.
End two_maps.
End two_maps.

Arguments two_maps.object Key {_ _} T.

(** ** The representation invariant

    What the member functions keep true of [keys_], [map_] and [index_]
    between calls, as long as the counter has not wrapped. *)

Section representation.
Context {Key : Type} `{Countable Key} {T : Type}.

(** [e1] is ordered before [e2] by the comparator reading ledger [L]. *)
Definition before (L : gmap Key Index) (e1 e2 : Key * T) : Prop :=
  compare_helper L e1.1 e2.1 = Some true.
Definition numbered_below (L : gmap Key Index) (n : Index) (e : Key * T)
  : Prop :=
  ∃ i, L !! e.1 = Some i ∧ (i < n)%Z.
Definition numbered_above (L : gmap Key Index) (n : Index) (e : Key * T)
  : Prop :=
  ∃ i, L !! e.1 = Some i ∧ (n < i)%Z.
Definition ledger_injective (L : gmap Key Index) : Prop :=
  ∀ k1 k2 i, L !! k1 = Some i → L !! k2 = Some i → k1 = k2.

(** The counter is above every live number, and no two live keys share a
    number. *)
Record ledger_ok (L : gmap Key Index) (idx : Index) : Prop := {
  ledger_range : (0 ≤ idx < Index_modulus)%Z;
  ledger_below : ∀ k i, L !! k = Some i → (0 ≤ i < idx)%Z;
  ledger_inj : ledger_injective L
}.

(** [map_] is in the order of its comparator, over keys of the ledger. *)
Record store_ok (L : gmap Key Index) (m : list (Key * T)) : Prop := {
  store_sorted : StronglySorted (before L) m;
  store_in_ledger : Forall (λ e, is_Some (L !! e.1)) m
}.

Record wf (s : ordered_map.t Key T) : Prop := {
  wf_ledger : ledger_ok (ordered_map.keys_ s) (ordered_map.index_ s);
  wf_store : store_ok (ordered_map.keys_ s) (ordered_map.map_ s);
  wf_ledger_in_store :
    ∀ k, is_Some (ordered_map.keys_ s !! k) → k ∈ (ordered_map.map_ s).*1
}.

(** [m1] and [m2] are the stored entries in front of and behind the place
    of key [k]. *)
Record cut (L : gmap Key Index) (k : Key) (m1 m2 : list (Key * T))
  : Prop := {
  cut_front_before : Forall (λ e, compare_helper L e.1 k = Some true) m1;
  cut_front_not_after : Forall (λ e, compare_helper L k e.1 = Some false) m1;
  cut_back_after : Forall (λ e, compare_helper L k e.1 = Some true) m2;
  cut_back_not_before : Forall (λ e, compare_helper L e.1 k = Some false) m2;
  cut_irrefl : compare_helper L k k = Some false
}.
End representation.

(** ** First-insertion order, as the specification words it

    Of a list of values handed to [insert] one after the other, the ones
    that carry a key not seen before, in their order.  This is the
    specification's side of the insertion-order property; nothing in the
    embedding of the header uses it. *)

Section first_insertion_order.
Context {Key : Type} `{EqDecision Key} {T : Type}.

Fixpoint first_inserted (seen : list Key) (l : list (Key * T))
  : list (Key * T) :=
  match l with
  | [] => []
  | value :: l' =>
      if decide (value.1 ∈ seen) then first_inserted seen l'
      else value :: first_inserted (seen ++ [value.1]) l'
  end.
End first_insertion_order.

(** ** The scenario of the specification

    An [ordered_map<std::string, int>]: insert "b", "a", "c"; erase "a";
    insert "a" again.  The states are written out; the lemmas at the end of
    the file check them against the member functions. *)

Module scenario.
Abbreviation insert3 :=
  [ordered_map.Insert ("b", 1%Z); ordered_map.Insert ("a", 2%Z);
   ordered_map.Insert ("c", 3%Z)].
Abbreviation run := (ordered_map.run "" 0%Z).

Definition b : ordered_map.t string Z :=
  ordered_map.mk {[ "b" := 0%Z ]} [("b", 1%Z)] 1%Z.
Definition bac : ordered_map.t string Z :=
  ordered_map.mk {[ "b" := 0%Z; "a" := 1%Z; "c" := 2%Z ]}
    [("b", 1%Z); ("a", 2%Z); ("c", 3%Z)] 3%Z.
Definition bc : ordered_map.t string Z :=
  ordered_map.mk {[ "b" := 0%Z; "c" := 2%Z ]} [("b", 1%Z); ("c", 3%Z)] 3%Z.
Definition bca : ordered_map.t string Z :=
  ordered_map.mk {[ "b" := 0%Z; "c" := 2%Z; "a" := 3%Z ]}
    [("b", 1%Z); ("c", 3%Z); ("a", 2%Z)] 4%Z.

(** After [clear()] on [bac] and [operator[]("z")]. *)
Definition z : ordered_map.t string Z :=
  ordered_map.mk {[ "z" := 3%Z ]} [("z", 0%Z)] 4%Z.

(** Two objects at addresses 0 and 1; "x" has been inserted at 0. *)
Definition two : gmap nat (two_maps.object string Z) :=
  <[0 := two_maps.mk {[ "x" := 0%Z ]} 0 0 [("x", 7%Z)] 1%Z]>
    (two_maps.construct 1 ∅).
End scenario.

(** ** A container whose counter has wrapped

    "a" was inserted into a new container (number 0) and [operator[]]
    called with it [2^64 - 1] times: [index_] is back at 0. *)

Module overflow.
(** After [insert({"a", 1})] on a new container. *)
Definition a : ordered_map.t string Z :=
  ordered_map.mk {[ "a" := 0%Z ]} [("a", 1%Z)] 1%Z.
Definition wrapped : ordered_map.t string Z :=
  ordered_map.mk {[ "a" := 0%Z ]} [("a", 1%Z)] 0%Z.
End overflow.

(** * Properties of the searches of [std_map]

    Everything [map_] does with a key [k] is determined once the stored
    sequence is cut where [k] belongs: the entries in front are ordered
    before [k], the entries behind are ordered after it. *)

Section std_map_located.
Context {Key T : Type} (comp : Key → Key → option bool).
Implicit Types (m : list (Key * T)) (k : Key) (v w : T).

Lemma drop_S_app_length {A} (l1 l2 : list A) (x : A) :
  drop (S (length l1)) (l1 ++ x :: l2) = l2.
Proof. by induction l1. Qed.

Lemma lower_bound_app m1 m2 k :
  Forall (λ e, comp e.1 k = Some true) m1 →
  std_map.lower_bound comp (m1 ++ m2) k
  = (λ i, length m1 + i) <$> std_map.lower_bound comp m2 k.
Proof.
  induction 1 as [|[x w] m1 Hx _ IH]; simpl in *.
  - by destruct (std_map.lower_bound comp m2 k).
  - rewrite Hx; simpl. rewrite IH.
    by destruct (std_map.lower_bound comp m2 k).
Qed.

Lemma upper_bound_app m1 m2 k :
  Forall (λ e, comp k e.1 = Some false) m1 →
  std_map.upper_bound comp (m1 ++ m2) k
  = (λ i, length m1 + i) <$> std_map.upper_bound comp m2 k.
Proof.
  induction 1 as [|[x w] m1 Hx _ IH]; simpl in *.
  - by destruct (std_map.upper_bound comp m2 k).
  - rewrite Hx; simpl. rewrite IH.
    by destruct (std_map.upper_bound comp m2 k).
Qed.

Lemma lower_bound_head_None x w m k :
  comp x k = None → std_map.lower_bound comp ((x, w) :: m) k = None.
Proof. intros Hx. simpl. by rewrite Hx. Qed.

Lemma upper_bound_head_None x w m k :
  comp k x = None → std_map.upper_bound comp ((x, w) :: m) k = None.
Proof. intros Hx. simpl. by rewrite Hx. Qed.

Section cut.
Variables (m1 m2 : list (Key * T)) (k : Key).
Hypothesis front_before : Forall (λ e, comp e.1 k = Some true) m1.
Hypothesis front_not_after : Forall (λ e, comp k e.1 = Some false) m1.
Hypothesis back_after : Forall (λ e, comp k e.1 = Some true) m2.
Hypothesis back_not_before : Forall (λ e, comp e.1 k = Some false) m2.

(** [k] is equivalent to no stored key. *)
Lemma lower_bound_absent :
  std_map.lower_bound comp (m1 ++ m2) k = Some (length m1).
Proof.
  rewrite lower_bound_app by done.
  destruct back_not_before as [|[x w] m2' Hx _]; simpl; [|simpl in Hx].
  - by rewrite Nat.add_0_r.
  - rewrite Hx; simpl. by rewrite Nat.add_0_r.
Qed.

Lemma insert_absent v :
  std_map.insert comp (m1 ++ m2) (k, v)
  = Some (m1 ++ (k, v) :: m2, (length m1, true)).
Proof.
  unfold std_map.insert; simpl. rewrite lower_bound_absent; simpl.
  destruct back_after as [|[x w] m2' Hx _]; [|simpl in Hx].
  - rewrite lookup_ge_None_2 by (rewrite length_app; simpl; lia).
    by rewrite app_nil_r.
  - rewrite list_lookup_middle by done. rewrite Hx; simpl.
    by rewrite take_app_length, drop_app_length.
Qed.

(** [k] is the key of a stored entry. *)
Hypothesis irrefl : comp k k = Some false.

Lemma lower_bound_present w :
  std_map.lower_bound comp (m1 ++ (k, w) :: m2) k = Some (length m1).
Proof.
  rewrite lower_bound_app by done. simpl. rewrite irrefl; simpl.
  by rewrite Nat.add_0_r.
Qed.

Lemma upper_bound_present w :
  std_map.upper_bound comp (m1 ++ (k, w) :: m2) k = Some (S (length m1)).
Proof.
  rewrite upper_bound_app by done. simpl. rewrite irrefl; simpl.
  destruct back_after as [|[x w'] m2' Hx _]; simpl; [|simpl in Hx].
  - f_equal; lia.
  - rewrite Hx; simpl. f_equal; lia.
Qed.

Lemma find_present w :
  std_map.find comp (m1 ++ (k, w) :: m2) k = Some (length m1).
Proof.
  unfold std_map.find. rewrite lower_bound_present; simpl.
  rewrite list_lookup_middle by done. by rewrite irrefl.
Qed.

Lemma count_present w :
  std_map.count comp (m1 ++ (k, w) :: m2) k = Some 1.
Proof.
  unfold std_map.count. rewrite find_present; simpl.
  case_decide as Hlen; [|done].
  rewrite length_app in Hlen; simpl in Hlen; lia.
Qed.

Lemma at_present w :
  std_map.at_ comp (m1 ++ (k, w) :: m2) k = Some (inr w).
Proof.
  unfold std_map.at_. rewrite lower_bound_present; simpl.
  rewrite list_lookup_middle by done. by rewrite irrefl.
Qed.

Lemma insert_present w v :
  std_map.insert comp (m1 ++ (k, w) :: m2) (k, v)
  = Some (m1 ++ (k, w) :: m2, (length m1, false)).
Proof.
  unfold std_map.insert; simpl. rewrite lower_bound_present; simpl.
  rewrite list_lookup_middle by done. by rewrite irrefl.
Qed.

Lemma erase_present w :
  std_map.erase comp (m1 ++ (k, w) :: m2) k = Some (m1 ++ m2, 1).
Proof.
  unfold std_map.erase, std_map.equal_range.
  rewrite lower_bound_present, upper_bound_present; simpl.
  rewrite take_app_length, drop_S_app_length.
  do 2 f_equal. lia.
Qed.
End cut.
End std_map_located.

(** * The order [compare_helper] induces on stored entries *)

Section ledger_order.
Context {Key : Type} `{Countable Key} {T : Type}.
Implicit Types (L : gmap Key Index) (m : list (Key * T)) (k : Key).
Implicit Types (n i j : Index) (e : Key * T).

Lemma compare_helper_Some L x y i j :
  L !! x = Some i → L !! y = Some j →
  compare_helper L x y = Some (Compare i j).
Proof. intros Hx Hy. unfold compare_helper. by rewrite Hx, Hy. Qed.

Lemma compare_helper_None_l L x y :
  L !! x = None → compare_helper L x y = None.
Proof. intros Hx. unfold compare_helper. by rewrite Hx. Qed.

Lemma compare_helper_None_r L x y :
  L !! y = None → compare_helper L x y = None.
Proof.
  intros Hy. unfold compare_helper. rewrite Hy. by destruct (L !! x).
Qed.

Lemma compare_helper_true L x y :
  compare_helper L x y = Some true
  ↔ ∃ i j, L !! x = Some i ∧ L !! y = Some j ∧ (i < j)%Z.
Proof.
  unfold compare_helper, Compare. split.
  - destruct (L !! x) as [i|], (L !! y) as [j|]; simpl; try done.
    intros [= Hlt%Z.ltb_lt]. eauto.
  - intros (i & j & -> & -> & Hlt); simpl.
    f_equal. by apply Z.ltb_lt.
Qed.

Lemma compare_helper_irrefl L k n :
  L !! k = Some n → compare_helper L k k = Some false.
Proof.
  intros Hk. rewrite (compare_helper_Some _ _ _ n n) by done.
  unfold Compare. by rewrite Z.ltb_irrefl.
Qed.

Lemma below_before L k n m :
  L !! k = Some n → Forall (numbered_below L n) m →
  Forall (λ e, compare_helper L e.1 k = Some true) m.
Proof.
  intros Hk Hm. eapply Forall_impl; [exact Hm|]. intros e (i & Hi & Hlt).
  apply compare_helper_true; eauto.
Qed.

Lemma below_not_after L k n m :
  L !! k = Some n → Forall (numbered_below L n) m →
  Forall (λ e, compare_helper L k e.1 = Some false) m.
Proof.
  intros Hk Hm. eapply Forall_impl; [exact Hm|]. intros e (i & Hi & Hlt).
  rewrite (compare_helper_Some _ _ _ n i) by done.
  unfold Compare. f_equal. apply Z.ltb_ge. lia.
Qed.

Lemma above_after L k n m :
  L !! k = Some n → Forall (numbered_above L n) m →
  Forall (λ e, compare_helper L k e.1 = Some true) m.
Proof.
  intros Hk Hm. eapply Forall_impl; [exact Hm|]. intros e (i & Hi & Hlt).
  apply compare_helper_true; eauto.
Qed.

Lemma above_not_before L k n m :
  L !! k = Some n → Forall (numbered_above L n) m →
  Forall (λ e, compare_helper L e.1 k = Some false) m.
Proof.
  intros Hk Hm. eapply Forall_impl; [exact Hm|]. intros e (i & Hi & Hlt).
  rewrite (compare_helper_Some _ _ _ i n) by done.
  unfold Compare. f_equal. apply Z.ltb_ge. lia.
Qed.

Lemma before_numbers L e1 e2 :
  before L e1 e2
  ↔ ∃ i j, L !! e1.1 = Some i ∧ L !! e2.1 = Some j ∧ (i < j)%Z.
Proof. apply compare_helper_true. Qed.

(** A sequence in comparator order has no two entries with one key. *)
Lemma sorted_NoDup L m : StronglySorted (before L) m → NoDup m.*1.
Proof.
  induction 1 as [|e m _ IH Hall]; simpl; constructor; [|done].
  intros (e' & Heq & Hin)%list_elem_of_fmap.
  rewrite Forall_forall in Hall.
  apply Hall, before_numbers in Hin as (i & j & Hi & Hj & Hlt).
  rewrite <- Heq, Hi in Hj. simplify_eq. lia.
Qed.

(** Cutting a sequence in comparator order at the place of a key that
    has the number [n]. *)
Lemma locate L m k n :
  ledger_injective L →
  StronglySorted (before L) m →
  Forall (λ e, is_Some (L !! e.1)) m →
  L !! k = Some n →
  ∃ m1 m2,
    Forall (numbered_below L n) m1 ∧ Forall (numbered_above L n) m2 ∧
    ((m = m1 ++ m2 ∧ k ∉ m.*1) ∨ (∃ w, m = m1 ++ (k, w) :: m2)).
Proof.
  intros Hinj Hsorted Hin Hk.
  induction Hsorted as [|[x w] m Hsorted IH Hall].
  { exists [], []. split_and!; [constructor|constructor|].
    left. split; [done|]. simpl. apply not_elem_of_nil. }
  apply Forall_cons in Hin as [[i Hi] Hin]; simpl in Hi.
  assert (Forall (numbered_above L i) m) as Habove.
  { eapply Forall_impl; [exact Hall|]. intros e Hb.
    apply before_numbers in Hb as (i' & j & Hi' & Hj & Hlt); simpl in Hi'.
    rewrite Hi in Hi'. simplify_eq. by exists j. }
  destruct (Z.lt_trichotomy i n) as [Hlt|[->|Hgt]].
  - destruct (IH Hin) as (m1 & m2 & H1 & H2 & Hcase).
    exists ((x, w) :: m1), m2. split_and!; [|done|].
    { constructor; [by exists i|done]. }
    destruct Hcase as [[-> Hnotin]|[w' ->]]; [left|right; by exists w'].
    split; [done|]. simpl. apply not_elem_of_cons. split; [|done].
    intros ->. rewrite Hi in Hk. simplify_eq. lia.
  - assert (x = k) as -> by (by eapply Hinj).
    exists [], m. split_and!; [constructor|done|]. right. by exists w.
  - exists [], ((x, w) :: m). split_and!; [constructor| |].
    { constructor; [by exists i|].
      eapply Forall_impl; [exact Habove|].
      intros e (j & Hj & Hlt). exists j. split; [done|lia]. }
    left. split; [done|].
    intros (e & Heq & He)%list_elem_of_fmap.
    assert (numbered_above L n e) as (j & Hj & Hlt).
    { apply elem_of_cons in He as [->|He].
      - by exists i.
      - rewrite Forall_forall in Habove.
        destruct (Habove e He) as (j & Hj & Hlt). exists j.
        split; [done|lia]. }
    rewrite <- Heq, Hk in Hj. simplify_eq. lia.
Qed.
End ledger_order.

(** * The representation invariant of [ordered_map] *)

Section invariant.
Context {Key : Type} `{Countable Key} {T : Type}.
Implicit Types (L : gmap Key Index) (m : list (Key * T)) (k : Key).
Implicit Types (n i j idx : Index) (e : Key * T) (s : ordered_map.t Key T).

Local Abbreviation keys_ := ordered_map.keys_.
Local Abbreviation map_ := ordered_map.map_.
Local Abbreviation index_ := ordered_map.index_.

Lemma wf_new : wf (ordered_map.new (Key:=Key) (T:=T)).
Proof.
  split; simpl.
  - split; [unfold Index_modulus; lia| |]; intros ?; intros;
      by simplify_map_eq.
  - split; constructor.
  - intros k [i Hi]. by simplify_map_eq.
Qed.

Lemma store_key_in_ledger L m k :
  store_ok L m → k ∈ m.*1 → is_Some (L !! k).
Proof.
  intros [_ Hin] (e & -> & He)%list_elem_of_fmap.
  rewrite Forall_forall in Hin. by apply Hin.
Qed.

(** Correspondence of the key sets, in both directions. *)
Lemma wf_correspondence s k :
  wf s → is_Some (keys_ s !! k) ↔ k ∈ (map_ s).*1.
Proof.
  intros [? ? ?]. split; [auto|]. by apply store_key_in_ledger.
Qed.

(** ** The ledger under [add_index] and [remove_index] *)

Lemma Index_succ_no_wrap idx :
  (0 ≤ idx)%Z → (idx + 1 < Index_modulus)%Z → Index_succ idx = (idx + 1)%Z.
Proof. intros ??. unfold Index_succ. apply Z.mod_small. lia. Qed.

Lemma Index_succ_wraps : Index_succ (Index_modulus - 1) = 0%Z.
Proof. done. Qed.

Lemma KeyContainer_insert_lookup L k i x :
  KeyContainer_insert (k, i) L !! x
  = match L !! x with
    | Some j => Some j
    | None => if decide (x = k) then Some i else None
    end.
Proof.
  unfold KeyContainer_insert; simpl.
  destruct (decide (x = k)) as [->|Hne].
  - destruct (L !! k) eqn:Hk; [by rewrite Hk|]. by rewrite lookup_insert_eq.
  - destruct (L !! k) eqn:Hk; [by destruct (L !! x)|].
    rewrite lookup_insert_ne by done. by destruct (L !! x).
Qed.

Lemma KeyContainer_insert_subseteq L k i : L ⊆ KeyContainer_insert (k, i) L.
Proof.
  apply map_subseteq_spec. intros x j Hx.
  by rewrite KeyContainer_insert_lookup, Hx.
Qed.

Lemma ledger_ok_add L idx k :
  ledger_ok L idx → (idx + 1 < Index_modulus)%Z →
  ledger_ok (KeyContainer_insert (k, idx) L) (Index_succ idx).
Proof.
  intros [Hrange Hbelow Hinj] Hidx.
  rewrite Index_succ_no_wrap by lia. split; [lia| |].
  - intros x i. rewrite KeyContainer_insert_lookup.
    destruct (L !! x) as [j|] eqn:Hx.
    + intros [= ->]. apply Hbelow in Hx. lia.
    + case_decide; [|done]. intros [= ->]. lia.
  - intros x y i. rewrite !KeyContainer_insert_lookup.
    destruct (L !! x) as [jx|] eqn:Hx, (L !! y) as [jy|] eqn:Hy.
    + intros [= ->] [= ->]. by eapply Hinj.
    + intros [= ->]. case_decide; [|done]. intros [= <-].
      apply Hbelow in Hx. lia.
    + case_decide; [|done]. intros [= <-] [= ->].
      apply Hbelow in Hy. lia.
    + do 2 (case_decide; [|done]). by subst.
Qed.

Lemma ledger_ok_sub L L' idx : L' ⊆ L → ledger_ok L idx → ledger_ok L' idx.
Proof.
  intros Hsub [Hrange Hbelow Hinj]. split; [done| |].
  - intros k i Hk. eapply Hbelow, lookup_weaken; done.
  - intros x y i Hx Hy.
    eapply Hinj; eapply lookup_weaken; done.
Qed.

(** ** [map_] when its ledger grows or shrinks *)

Lemma before_weaken L L' e1 e2 : L ⊆ L' → before L e1 e2 → before L' e1 e2.
Proof.
  intros Hsub (i & j & Hi & Hj & Hlt)%before_numbers.
  apply before_numbers. exists i, j.
  split_and!; [eapply lookup_weaken; done..|done].
Qed.

Lemma store_ok_weaken L L' m : L ⊆ L' → store_ok L m → store_ok L' m.
Proof.
  intros Hsub [Hsorted Hin]. split.
  - clear Hin. induction Hsorted as [|e m _ IH Hall]; constructor; [done|].
    eapply Forall_impl; [exact Hall|]. intros e'. by apply before_weaken.
  - eapply Forall_impl; [exact Hin|]. intros e [i Hi].
    exists i. by eapply lookup_weaken.
Qed.

(** Entries that keep their numbers keep their order. *)
Lemma store_ok_agree L L' m :
  (∀ k, k ∈ m.*1 → L' !! k = L !! k) → store_ok L m → store_ok L' m.
Proof.
  intros Hagree [Hsorted Hin]. split.
  - clear Hin. induction Hsorted as [|e m _ IH Hall]; constructor.
    + apply IH. intros k Hk. apply Hagree. simpl. by right.
    + rewrite Forall_forall in Hall |- *. intros e' He'.
      specialize (Hall e' He').
      apply before_numbers in Hall as (i & j & Hi & Hj & Hlt).
      apply before_numbers. exists i, j. split_and!; [| |done].
      * rewrite Hagree; [done|]. simpl. left.
      * rewrite Hagree; [done|]. simpl. right.
        by apply list_elem_of_fmap_2.
  - rewrite Forall_forall in Hin |- *. intros e He.
    rewrite Hagree; [by apply Hin|]. by apply list_elem_of_fmap_2.
Qed.

Lemma store_ok_app L m1 m2 m3 :
  store_ok L (m1 ++ m2 ++ m3) → store_ok L (m1 ++ m3).
Proof.
  intros [Hsorted Hin]. split.
  - apply StronglySorted_app in Hsorted as (H13 & H1 & H23).
    apply StronglySorted_app in H23 as (_ & _ & H3).
    apply StronglySorted_app. split_and!; [|done..].
    intros e1 e2 He1 He2. apply H13; [done|].
    apply elem_of_app. by right.
  - apply Forall_app in Hin as [? [_ ?]%Forall_app]. by apply Forall_app.
Qed.

(** ** What [map_] does with a key that is in the ledger *)

Lemma cut_intro L k n m1 m2 :
  L !! k = Some n →
  Forall (numbered_below L n) m1 → Forall (numbered_above L n) m2 →
  cut L k m1 m2.
Proof.
  intros Hk H1 H2. split;
    eauto using below_before, below_not_after, above_after,
      above_not_before, compare_helper_irrefl.
Qed.

Lemma store_locate L m k :
  ledger_injective L → store_ok L m → is_Some (L !! k) →
  ∃ m1 m2, cut L k m1 m2 ∧
    ((m = m1 ++ m2 ∧ k ∉ m.*1) ∨ (∃ w, m = m1 ++ (k, w) :: m2)).
Proof.
  intros Hinj [Hsorted Hin] [n Hk].
  destruct (locate L m k n) as (m1 & m2 & H1 & H2 & Hcase); [done..|].
  exists m1, m2. split; [by eapply cut_intro|done].
Qed.

Lemma cut_store_ok L k v m1 m2 :
  is_Some (L !! k) → cut L k m1 m2 →
  store_ok L (m1 ++ m2) → store_ok L (m1 ++ (k, v) :: m2).
Proof.
  intros Hk [Hbefore _ Hafter _ _] [Hsorted Hin]. split.
  - apply StronglySorted_app in Hsorted as (H12 & H1 & H2).
    apply StronglySorted_app. split_and!; [|done|].
    + intros e1 e2 He1 [->|He2]%elem_of_cons; [|by apply H12].
      rewrite Forall_forall in Hbefore. by apply Hbefore.
    + constructor; [done|]. exact Hafter.
  - apply Forall_app in Hin as [? ?]. apply Forall_app. split; [done|].
    by constructor.
Qed.

Lemma elem_of_keys_middle (m1 m2 : list (Key * T)) k v x :
  x ∈ (m1 ++ (k, v) :: m2).*1 ↔ x = k ∨ x ∈ (m1 ++ m2).*1.
Proof.
  rewrite !fmap_app, fmap_cons, !elem_of_app, elem_of_cons. simpl. tauto.
Qed.

(** [map_.insert] of a key of the ledger always returns, keeps the order,
    and adds the key unless it is stored already. *)
Lemma store_insert L m k v :
  ledger_injective L → store_ok L m → is_Some (L !! k) →
  ∃ m' (pos : nat) b,
    std_map.insert (compare_helper L) m (k, v) = Some (m', (pos, b)) ∧
    store_ok L m' ∧
    (∀ x, x ∈ m'.*1 ↔ x = k ∨ x ∈ m.*1) ∧
    (k ∈ m.*1 → m' = m ∧ b = false) ∧
    (∃ w, m' !! pos = Some (k, w) ∧ (k ∉ m.*1 → w = v)).
Proof.
  intros Hinj Hstore Hk.
  destruct (store_locate L m k) as (m1 & m2 & Hcut & Hcase); [done..|].
  pose proof Hcut as [? ? ? ? ?].
  destruct Hcase as [[-> Hnotin]|[w ->]].
  - exists (m1 ++ (k, v) :: m2), (length m1), true. split_and!.
    + by apply insert_absent.
    + by apply cut_store_ok.
    + intros x. apply elem_of_keys_middle.
    + done.
    + exists v. by rewrite list_lookup_middle.
  - exists (m1 ++ (k, w) :: m2), (length m1), false. split_and!.
    + by apply insert_present.
    + done.
    + intros x. rewrite elem_of_keys_middle. tauto.
    + done.
    + exists w. rewrite list_lookup_middle by done. split; [done|].
      intros []. apply elem_of_keys_middle. by left.
Qed.

(** A key whose number is above every stored one goes to the end. *)
Lemma store_insert_last L m k v n :
  L !! k = Some n → Forall (numbered_below L n) m →
  std_map.insert (compare_helper L) m (k, v)
  = Some (m ++ [(k, v)], (length m, true)).
Proof.
  intros Hk Hm.
  pose proof (cut_intro L k n m [] Hk Hm (Forall_nil_2 _)) as [? ? ? ? ?].
  rewrite <- (app_nil_r m) at 1. by apply insert_absent.
Qed.

(** A larger ledger does not change what a comparison returns. *)
Lemma compare_helper_weaken L L' x y b :
  L ⊆ L' → compare_helper L x y = Some b → compare_helper L' x y = Some b.
Proof.
  intros Hsub. unfold compare_helper.
  destruct (L !! x) as [i|] eqn:Hx; [|done].
  destruct (L !! y) as [j|] eqn:Hy; [|done]. simpl.
  by rewrite (lookup_weaken _ _ _ _ Hx Hsub), (lookup_weaken _ _ _ _ Hy Hsub).
Qed.

Lemma lower_bound_weaken L L' m k r :
  L ⊆ L' →
  std_map.lower_bound (compare_helper L) m k = Some r →
  std_map.lower_bound (compare_helper L') m k = Some r.
Proof.
  intros Hsub. revert r. induction m as [|[x w] m IH]; intros r; [done|].
  simpl. destruct (compare_helper L x k) as [b|] eqn:Hb; [|done].
  rewrite (compare_helper_weaken _ _ _ _ _ Hsub Hb). simpl.
  destruct b; [|done].
  destruct (std_map.lower_bound (compare_helper L) m k) as [r'|]; [|done].
  by rewrite (IH r').
Qed.

Lemma std_map_insert_weaken L L' m value r :
  L ⊆ L' →
  std_map.insert (compare_helper L) m value = Some r →
  std_map.insert (compare_helper L') m value = Some r.
Proof.
  intros Hsub. unfold std_map.insert.
  destruct (std_map.lower_bound (compare_helper L) m value.1) as [i|] eqn:Hi;
    [|done].
  rewrite (lower_bound_weaken _ _ _ _ _ Hsub Hi). simpl.
  destruct (m !! i) as [[x w]|]; [|done].
  destruct (compare_helper L value.1 x) as [b|] eqn:Hb; [|done].
  by rewrite (compare_helper_weaken _ _ _ _ _ Hsub Hb).
Qed.
End invariant.

(** * The member functions on well-formed containers *)

Section operations.
Context {Key : Type} `{Countable Key} {T : Type}.
Variable Key_default : Key.
Variable T_default : T.
Implicit Types (L : gmap Key Index) (m : list (Key * T)) (k : Key) (v w : T).
Implicit Types (s : ordered_map.t Key T) (value : Key * T).

Local Abbreviation keys_ := ordered_map.keys_.
Local Abbreviation map_ := ordered_map.map_.
Local Abbreviation index_ := ordered_map.index_.

Lemma with_map_id s : ordered_map.with_map_ s (map_ s) = s.
Proof. by destruct s. Qed.

(** ** insert *)

Lemma add_index_wf_parts k s :
  wf s → (index_ s + 1 < Index_modulus)%Z →
  let s1 := ordered_map.add_index k s in
  ledger_ok (keys_ s1) (index_ s1) ∧ store_ok (keys_ s1) (map_ s1) ∧
  is_Some (keys_ s1 !! k) ∧ index_ s1 = (index_ s + 1)%Z.
Proof.
  intros [Hledger Hstore _] Hidx. simpl. split_and!.
  - by apply ledger_ok_add.
  - eapply store_ok_weaken; [apply KeyContainer_insert_subseteq|done].
  - rewrite KeyContainer_insert_lookup.
    destruct (keys_ s !! k); [done|]. by rewrite decide_True.
  - apply Index_succ_no_wrap; [|done]. by destruct Hledger as [[? ?] _ _].
Qed.

(** [insert] returns on every well-formed container and keeps it
    well-formed while the counter has room. *)
Lemma insert_wf value s :
  wf s → (index_ s + 1 < Index_modulus)%Z →
  ∃ s' r, ordered_map.insert value s = Some (s', r) ∧ wf s' ∧
    index_ s' = (index_ s + 1)%Z ∧
    (∀ x, x ∈ (map_ s').*1 ↔ x = value.1 ∨ x ∈ (map_ s).*1) ∧
    is_Some (map_ s' !! r.1) ∧
    keys_ s' = KeyContainer_insert (value.1, index_ s) (keys_ s).
Proof.
  intros Hwf Hidx. destruct value as [k v].
  destruct (add_index_wf_parts k s Hwf Hidx) as (Hledger & Hstore & Hk & Hi).
  destruct (store_insert _ _ k v (ledger_inj _ _ Hledger) Hstore Hk)
    as (m' & pos & b & Hins & Hstore' & Hkeys & _ & (w & Hw & _)).
  exists (ordered_map.with_map_ (ordered_map.add_index k s) m'), (pos, b).
  unfold ordered_map.insert, ordered_map.comp. simpl in *.
  rewrite Hins. simpl. split_and!; [done| |done|done|by rewrite Hw|done].
  split; simpl; [done..|].
  intros x. rewrite KeyContainer_insert_lookup.
  intros Hx. apply Hkeys.
  destruct (keys_ s !! x) eqn:Hsx.
  - right. apply Hwf. by rewrite Hsx.
  - case_decide; [by left|by destruct Hx].
Qed.

(** A key that is not in the ledger gets [index_] as its number and goes
    behind every entry. *)
Lemma insert_new k v s :
  wf s → keys_ s !! k = None → (index_ s + 1 < Index_modulus)%Z →
  ordered_map.insert (k, v) s
  = Some (ordered_map.mk (<[k := index_ s]> (keys_ s))
                         (map_ s ++ [(k, v)]) (index_ s + 1)%Z,
          (length (map_ s), true)).
Proof.
  intros Hwf Hk Hidx.
  destruct (add_index_wf_parts k s Hwf Hidx) as (_ & _ & _ & Hi).
  unfold ordered_map.insert, ordered_map.comp.
  unfold ordered_map.add_index in *. simpl in *.
  unfold KeyContainer_insert. simpl. rewrite Hk.
  rewrite (store_insert_last _ _ _ _ (index_ s)).
  - simpl. unfold ordered_map.with_map_. simpl. by rewrite Hi.
  - by rewrite lookup_insert_eq.
  - destruct Hwf as [[_ Hbelow _] [_ Hin] _].
    eapply Forall_impl; [exact Hin|]. intros e [i Hi'].
    exists i. split; [|by eapply Hbelow].
    rewrite lookup_insert_ne; [done|]. intros Heq.
    rewrite Heq in Hk. congruence.
Qed.

(** A key that is in the ledger has its entry in [map_], with the entries
    ordered before it in front and the ones ordered after it behind. *)
Lemma existing_entry k s :
  wf s → is_Some (keys_ s !! k) →
  ∃ m1 w m2, map_ s = m1 ++ (k, w) :: m2 ∧ cut (keys_ s) k m1 m2.
Proof.
  intros Hwf Hk. pose proof Hwf as [[_ _ Hinj] Hstore Hcorr].
  destruct (store_locate (keys_ s) (map_ s) k)
    as (m1 & m2 & Hcut & [[_ Hnotin]|[w Hm]]); [done..| |].
  { destruct Hnotin. by apply Hcorr. }
  by exists m1, w, m2.
Qed.

(** Inserting it again keeps its number and its entry; only the counter
    moves. *)
Lemma insert_at_entry k v s m1 w m2 :
  is_Some (keys_ s !! k) →
  map_ s = m1 ++ (k, w) :: m2 → cut (keys_ s) k m1 m2 →
  ordered_map.insert (k, v) s
  = Some (ordered_map.mk (keys_ s) (map_ s) (Index_succ (index_ s)),
          (length m1, false)).
Proof.
  intros [n Hk] Hm [? ? ? ? ?].
  unfold ordered_map.insert, ordered_map.comp, ordered_map.add_index,
    ordered_map.with_map_.
  simpl. unfold KeyContainer_insert. simpl. rewrite Hk, Hm.
  by rewrite insert_present by done.
Qed.

Lemma subscript_at_entry k s m1 w m2 :
  is_Some (keys_ s !! k) →
  map_ s = m1 ++ (k, w) :: m2 → cut (keys_ s) k m1 m2 →
  ordered_map.subscript T_default k s
  = Some (ordered_map.mk (keys_ s) (map_ s) (Index_succ (index_ s)), w).
Proof.
  intros [n Hk] Hm [? ? ? ? ?].
  unfold ordered_map.subscript, std_map.subscript, ordered_map.comp,
    ordered_map.add_index, ordered_map.with_map_.
  simpl. unfold KeyContainer_insert. simpl. rewrite Hk, Hm.
  rewrite insert_present by done. simpl.
  by rewrite list_lookup_middle.
Qed.

Lemma insert_existing k v s :
  wf s → is_Some (keys_ s !! k) →
  ∃ pos w, map_ s !! pos = Some (k, w) ∧
    ordered_map.insert (k, v) s
    = Some (ordered_map.mk (keys_ s) (map_ s) (Index_succ (index_ s)),
            (pos, false)).
Proof.
  intros Hwf Hk.
  destruct (existing_entry k s) as (m1 & w & m2 & Hm & Hcut); [done..|].
  exists (length m1), w. split.
  - rewrite Hm. by apply list_lookup_middle.
  - by eapply insert_at_entry.
Qed.

(** ** erase *)

(** Taking a run of entries out of [map_] and their keys out of [keys_]. *)
Lemma wf_remove_segment s m1 m2 m3 L' :
  wf s → map_ s = m1 ++ m2 ++ m3 →
  (∀ x, L' !! x = if decide (x ∈ m2.*1) then None else keys_ s !! x) →
  wf (ordered_map.mk L' (m1 ++ m3) (index_ s)).
Proof.
  intros [Hledger Hstore Hcorr] Hm HL'. rewrite Hm in *.
  assert (L' ⊆ keys_ s) as Hsub.
  { apply map_subseteq_spec. intros x i. rewrite HL'. by case_decide. }
  pose proof (sorted_NoDup _ _ (store_sorted _ _ Hstore)) as Hnodup.
  rewrite !fmap_app in Hnodup.
  apply NoDup_app in Hnodup as (_ & H1 & (_ & H23 & _)%NoDup_app).
  assert (∀ x, x ∈ (m1 ++ m3).*1 → x ∉ m2.*1) as Hkept.
  { intros x. rewrite fmap_app, elem_of_app. intros [Hx|Hx] Hx2.
    - eapply H1; [done|]. apply elem_of_app. by left.
    - by eapply H23. }
  split; simpl.
  - by eapply ledger_ok_sub.
  - eapply store_ok_agree; [|by eapply store_ok_app].
    intros x Hx. rewrite HL'. rewrite decide_False; [done|]. by apply Hkept.
  - intros x. rewrite HL'. case_decide as Hx2; [by intros []|].
    intros Hx%Hcorr. revert Hx.
    rewrite !fmap_app, !elem_of_app. tauto.
Qed.

Lemma foldl_remove_index ks s :
  let s' := foldl (λ s key, ordered_map.remove_index key s) s ks in
  (∀ x, keys_ s' !! x = if decide (x ∈ ks) then None else keys_ s !! x) ∧
  map_ s' = map_ s ∧ index_ s' = index_ s.
Proof.
  revert s. induction ks as [|k ks IH]; intros s; cbn [foldl].
  - split; [|done]. intros x. rewrite decide_False; [done|].
    apply not_elem_of_nil.
  - destruct (IH (ordered_map.remove_index k s)) as (Hkeys & -> & ->).
    split; [|done]. intros x. rewrite Hkeys.
    cbn [ordered_map.remove_index ordered_map.keys_].
    destruct (decide (x = k)) as [->|Hne].
    + rewrite lookup_delete_eq. rewrite (decide_True (P:=k ∈ k :: ks));
        [by case_decide|left].
    + rewrite lookup_delete_ne by done.
      destruct (decide (x ∈ ks)).
      * rewrite decide_True; [done|by right].
      * rewrite decide_False; [done|]. by apply not_elem_of_cons.
Qed.

(** [erase(key)] of a live key takes its entry and its number away. *)
Lemma erase_existing k s :
  wf s → is_Some (keys_ s !! k) →
  ∃ m1 w m2, map_ s = m1 ++ (k, w) :: m2 ∧
    ordered_map.erase k s
    = Some (ordered_map.mk (delete k (keys_ s)) (m1 ++ m2) (index_ s), 1) ∧
    wf (ordered_map.mk (delete k (keys_ s)) (m1 ++ m2) (index_ s)).
Proof.
  intros Hwf Hk. pose proof Hwf as [[_ _ Hinj] Hstore Hcorr].
  destruct (store_locate (keys_ s) (map_ s) k)
    as (m1 & m2 & Hcut & [[_ Hnotin]|[w Hm]]); [done..| |].
  { destruct Hnotin. by apply Hcorr. }
  pose proof Hcut as [? ? ? ? ?].
  exists m1, w, m2. split_and!; [done| |].
  - unfold ordered_map.erase, ordered_map.comp. rewrite Hm.
    by rewrite erase_present by done.
  - apply (wf_remove_segment s m1 [(k, w)] m2); [done..|].
    intros x. change ([(k, w)].*1) with [k].
    cbn [ordered_map.keys_].
    destruct (decide (x ∈ [k])) as [->%list_elem_of_singleton|Hne].
    + by rewrite lookup_delete_eq.
    + rewrite lookup_delete_ne; [done|]. intros ->. apply Hne.
      by apply list_elem_of_singleton.
Qed.

(** With a key that is not in the ledger, [map_.erase] returns only on
    the empty container: any stored key makes the comparator dereference
    the failed lookup. *)
Lemma erase_missing k s :
  keys_ s !! k = None →
  ordered_map.erase k s = if decide (map_ s = []) then Some (s, 0) else None.
Proof.
  intros Hk. unfold ordered_map.erase, ordered_map.comp.
  unfold std_map.erase, std_map.equal_range.
  case_decide as Hm.
  - rewrite Hm. simpl. rewrite <- Hm. by rewrite with_map_id.
  - destruct (map_ s) as [|[x w] m]; [done|].
    rewrite lower_bound_head_None; [done|].
    by apply compare_helper_None_r.
Qed.

Lemma erase_wf k s s' r :
  wf s → ordered_map.erase k s = Some (s', r) →
  wf s' ∧ index_ s' = index_ s ∧ keys_ s' ⊆ keys_ s.
Proof.
  intros Hwf. destruct (keys_ s !! k) as [n|] eqn:Hk.
  - destruct (erase_existing k s) as (m1 & w & m2 & _ & -> & Hwf');
      [done..|].
    intros [= <- <-]. split_and!; [done..|]. apply delete_subseteq.
  - rewrite erase_missing by done. case_decide; [|done].
    by intros [= <- <-].
Qed.

Lemma erase_pos_wf pos s s' r :
  wf s → ordered_map.erase_pos pos s = Some (s', r) →
  wf s' ∧ index_ s' = index_ s ∧ keys_ s' ⊆ keys_ s.
Proof.
  intros Hwf. unfold ordered_map.erase_pos.
  destruct (map_ s !! pos) as [[k w]|] eqn:Hpos; [|done]. simpl.
  intros [= <- <-]. split_and!; [|done|apply delete_subseteq].
  unfold ordered_map.with_map_; simpl.
  apply (wf_remove_segment s (take pos (map_ s)) [(k, w)]
           (drop (S pos) (map_ s))); [done| |].
  - by rewrite <- (take_drop_middle _ _ _ Hpos) at 1.
  - intros x. change ([(k, w)].*1) with [k].
    destruct (decide (x ∈ [k])) as [->%list_elem_of_singleton|Hne].
    + by rewrite lookup_delete_eq.
    + rewrite lookup_delete_ne; [done|]. intros ->. apply Hne.
      by apply list_elem_of_singleton.
Qed.

Lemma erase_range_wf first last s s' r :
  wf s → ordered_map.erase_range first last s = Some (s', r) →
  wf s' ∧ index_ s' = index_ s ∧ keys_ s' ⊆ keys_ s.
Proof.
  intros Hwf. unfold ordered_map.erase_range.
  case_decide as Hrange; [|done].
  set (erased := take (last - first) (drop first (map_ s))).
  destruct (foldl_remove_index erased.*1 s) as (Hkeys & Hmap & Hidx).
  unfold std_map.erase_range. intros [= <- <-].
  unfold ordered_map.with_map_. rewrite Hmap, Hidx. split_and!; [|done|].
  2:{ apply map_subseteq_spec. intros x i. cbn [ordered_map.keys_].
      rewrite Hkeys. by case_decide. }
  apply (wf_remove_segment s (take first (map_ s)) erased
           (drop last (map_ s))); [done| |done].
  rewrite <- (take_drop first (map_ s)) at 1. f_equal.
  subst erased.
  rewrite <- (take_drop (last - first) (drop first (map_ s))) at 1.
  f_equal. rewrite drop_drop. f_equal. lia.
Qed.

(** ** The other forms of insertion *)

Lemma foldl_add_index l s :
  let s' := foldl (λ s value, ordered_map.add_index value.1 s) s l in
  keys_ s ⊆ keys_ s' ∧ map_ s' = map_ s.
Proof.
  revert s. induction l as [|value l IH]; intros s; cbn [foldl]; [done|].
  destruct (IH (ordered_map.add_index value.1 s)) as [Hsub ->].
  split; [|done]. etrans; [|exact Hsub].
  apply KeyContainer_insert_subseteq.
Qed.

Lemma foldl_add_index_with_map l s m :
  foldl (λ s value, ordered_map.add_index value.1 s)
    (ordered_map.with_map_ s m) l
  = ordered_map.with_map_
      (foldl (λ s value, ordered_map.add_index value.1 s) s l) m.
Proof.
  revert s. induction l as [|value l IH]; intros s; cbn [foldl]; [done|].
  by rewrite <- IH.
Qed.

Lemma insert_each_wf l s :
  wf s → (index_ s + Z.of_nat (length l) < Index_modulus)%Z →
  ∃ s', ordered_map.insert_each l s = Some s' ∧ wf s' ∧
    index_ s' = (index_ s + Z.of_nat (length l))%Z ∧
    (∀ k i, keys_ s' !! k = Some i →
            keys_ s !! k = Some i ∨ (index_ s ≤ i)%Z).
Proof.
  revert s. induction l as [|value l IH]; intros s Hwf Hidx.
  { exists s. split_and!; [done..|simpl; lia|by left]. }
  cbn [length] in Hidx.
  destruct (insert_wf value s)
    as (s1 & r & Hins & Hwf1 & Hidx1 & _ & _ & Hkeys1); [done|lia|].
  destruct (IH s1) as (s' & Hs' & Hwf' & Hidx' & Hkeys'); [done|lia|].
  exists s'. simpl. rewrite Hins. simpl.
  split_and!; [done..|cbn [length]; lia|].
  intros k i [Hk|Hk]%Hkeys'; [|right; lia].
  rewrite Hkeys1, KeyContainer_insert_lookup in Hk.
  destruct (keys_ s !! k); [by left|].
  case_decide; [|done]. right. injection Hk as <-. lia.
Qed.

(** On a well-formed container the range form does what one [insert] per
    element does, although it numbers every key before it stores any. *)
Lemma insert_range_insert_each l s :
  wf s → (index_ s + Z.of_nat (length l) < Index_modulus)%Z →
  ordered_map.insert_range l s = ordered_map.insert_each l s.
Proof.
  revert s. induction l as [|value l IH]; intros s Hwf Hidx.
  { unfold ordered_map.insert_range. simpl. by rewrite with_map_id. }
  cbn [length] in Hidx.
  destruct (insert_wf value s)
    as (s1 & [pos b] & Hins & Hwf1 & Hidx1 & _ & _ & _); [done|lia|].
  cbn [ordered_map.insert_each]. rewrite Hins. simpl.
  rewrite <- IH by (done || lia).
  unfold ordered_map.insert in Hins.
  destruct (std_map.insert _ _ value) as [[m1 r]|] eqn:Hm1; [|done].
  simpl in Hins. simplify_eq.
  unfold ordered_map.insert_range. cbn [foldl].
  rewrite foldl_add_index_with_map.
  destruct (foldl_add_index l (ordered_map.add_index value.1 s))
    as [Hsub Hmap].
  set (sF := foldl _ (ordered_map.add_index value.1 s) l) in *.
  cbn [std_map.insert_range]. rewrite Hmap.
  unfold ordered_map.comp in *.
  rewrite (std_map_insert_weaken _ _ _ _ _ Hsub Hm1). simpl.
  by destruct (std_map.insert_range _ m1 l).
Qed.

Lemma insert_hint_insert hint value s :
  hint ≤ length (map_ s) →
  ordered_map.insert_hint hint value s
  = (λ '(s', (pos, _)), (s', pos)) <$> ordered_map.insert value s.
Proof.
  intros Hhint. unfold ordered_map.insert_hint, ordered_map.insert.
  unfold std_map.insert_hint. simpl. rewrite decide_True by done.
  destruct (std_map.insert _ _ value) as [[m [pos b]]|]; done.
Qed.

Lemma insert_hint_invalid hint value s :
  ¬ hint ≤ length (map_ s) → ordered_map.insert_hint hint value s = None.
Proof.
  intros Hhint. unfold ordered_map.insert_hint, std_map.insert_hint.
  simpl. by rewrite decide_False by done.
Qed.

Lemma emplace_insert value s :
  ordered_map.emplace value s = ordered_map.insert value s.
Proof. done. Qed.

Lemma emplace_hint_insert_hint hint value s :
  ordered_map.emplace_hint hint value s
  = ordered_map.insert_hint hint value s.
Proof. done. Qed.

(** [operator[]] returns on every well-formed container, and changes it
    the way [insert({key, T{}})] does. *)
Lemma subscript_wf k s :
  wf s → (index_ s + 1 < Index_modulus)%Z →
  ∃ s' v r, ordered_map.subscript T_default k s = Some (s', v) ∧
    ordered_map.insert (k, T_default) s = Some (s', r).
Proof.
  intros Hwf Hidx.
  destruct (insert_wf (k, T_default) s)
    as (s1 & [pos b] & Hins & _ & _ & _ & [[x w] Hpos] & _); [done..|].
  exists s1, w, (pos, b). split; [|done].
  unfold ordered_map.subscript, std_map.subscript.
  unfold ordered_map.insert in Hins. simpl in *.
  destruct (std_map.insert _ _ (k, T_default)) as [[m1 r]|]; [|done].
  simpl in Hins. simplify_eq. simpl in *. by rewrite Hpos.
Qed.

(** ** Every call keeps the container well-formed *)

Lemma wf_clear s : wf s → wf (ordered_map.clear s).
Proof.
  intros [[Hrange _ _] _ _]. split; simpl.
  - split; [done| |]; intros ?; intros; by simplify_map_eq.
  - split; constructor.
  - intros k [i Hi]. by simplify_map_eq.
Qed.

Lemma step_wf o s s' :
  wf s →
  (index_ s + Z.of_nat (ordered_map.add_index_calls o) < Index_modulus)%Z →
  ordered_map.step Key_default T_default o s = Some s' →
  wf s' ∧
  index_ s' = (index_ s + Z.of_nat (ordered_map.add_index_calls o))%Z ∧
  (∀ k i, keys_ s' !! k = Some i →
          keys_ s !! k = Some i ∨ (index_ s ≤ i)%Z).
Proof.
  intros Hwf Hidx.
  assert (∀ value, (index_ s + 1 < Index_modulus)%Z →
            fst <$> ordered_map.insert value s = Some s' →
            wf s' ∧ index_ s' = (index_ s + 1)%Z ∧
            (∀ k i, keys_ s' !! k = Some i →
                    keys_ s !! k = Some i ∨ (index_ s ≤ i)%Z)) as Hinsert.
  { intros value Hidx1.
    destruct (insert_wf value s)
      as (s1 & r & -> & Hwf1 & Hidx1' & _ & _ & Hkeys1); [done..|].
    intros [= <-]. split_and!; [done..|].
    intros k i. rewrite Hkeys1, KeyContainer_insert_lookup.
    destruct (keys_ s !! k); [by left|].
    case_decide; [|done]. intros [= <-]. right. lia. }
  assert (∀ hint value, (index_ s + 1 < Index_modulus)%Z →
            fst <$> ordered_map.insert_hint hint value s = Some s' →
            wf s' ∧ index_ s' = (index_ s + 1)%Z ∧
            (∀ k i, keys_ s' !! k = Some i →
                    keys_ s !! k = Some i ∨ (index_ s ≤ i)%Z)) as Hhint.
  { intros hint value Hidx1.
    destruct (decide (hint ≤ length (map_ s))).
    - rewrite insert_hint_insert by done. intros Hs'.
      apply (Hinsert value Hidx1).
      destruct (ordered_map.insert value s) as [[s1 [pos b]]|]; done.
    - by rewrite insert_hint_invalid. }
  assert (∀ s1, wf s1 ∧ index_ s1 = index_ s ∧ keys_ s1 ⊆ keys_ s →
            wf s1 ∧ index_ s1 = (index_ s + Z.of_nat 0)%Z ∧
            (∀ k i, keys_ s1 !! k = Some i →
                    keys_ s !! k = Some i ∨ (index_ s ≤ i)%Z)) as Herase.
  { intros s1 (Hwf1 & Hidx1 & Hsub). split_and!; [done|lia|].
    intros k i Hk. left. by eapply lookup_weaken. }
  assert (wf s ∧ index_ s = (index_ s + Z.of_nat 0)%Z ∧
          (∀ k i, keys_ s !! k = Some i →
                  keys_ s !! k = Some i ∨ (index_ s ≤ i)%Z)) as Hsame.
  { split_and!; [done|lia|by left]. }
  destruct o; simpl in *.
  - by apply Hinsert.
  - by apply Hhint.
  - rewrite insert_range_insert_each by done.
    destruct (insert_each_wf l s) as (s1 & -> & Hwf1 & Hidx1 & Hkeys1);
      [done..|].
    by intros [= <-].
  - by apply Hinsert.
  - by apply Hhint.
  - destruct (subscript_wf key s) as (s1 & v & r & -> & Hins); [done..|].
    intros [= <-]. apply (Hinsert (key, T_default)); [done|].
    by rewrite Hins.
  - destruct (ordered_map.erase_pos pos s) as [[s1 r]|] eqn:Hop; [|done].
    intros [= <-]. by eapply Herase, erase_pos_wf.
  - destruct (ordered_map.erase_range _ _ s) as [[s1 r]|] eqn:Hop;
      [|done].
    intros [= <-]. by eapply Herase, erase_range_wf.
  - destruct (ordered_map.erase key s) as [[s1 r]|] eqn:Hop; [|done].
    intros [= <-]. by eapply Herase, erase_wf.
  - intros [= <-]. split_and!; [by apply wf_clear|simpl; lia|].
    intros k i Hk. by simplify_map_eq.
  - destruct (ordered_map.at_ s key); [|done]. by intros [= <-].
  - destruct (ordered_map.find s key); [|done]. by intros [= <-].
  - destruct (ordered_map.count s key); [|done]. by intros [= <-].
  - destruct (ordered_map.equal_range s key); [|done]. by intros [= <-].
  - destruct (ordered_map.lower_bound s key); [|done]. by intros [= <-].
  - destruct (ordered_map.upper_bound s key); [|done]. by intros [= <-].
  - destruct (ordered_map.keys Key_default s); [|done]. by intros [= <-].
Qed.

Lemma run_wf ops s s' :
  wf s →
  (index_ s + Z.of_nat (ordered_map.total_add_index_calls ops)
   < Index_modulus)%Z →
  ordered_map.run Key_default T_default ops s = Some s' →
  wf s' ∧
  index_ s'
  = (index_ s + Z.of_nat (ordered_map.total_add_index_calls ops))%Z ∧
  (∀ k i, keys_ s' !! k = Some i →
          keys_ s !! k = Some i ∨ (index_ s ≤ i)%Z).
Proof.
  revert s. induction ops as [|o ops IH]; intros s Hwf Hidx.
  { intros [= <-]. split_and!; [done|simpl; lia|by left]. }
  cbn [ordered_map.total_add_index_calls ordered_map.run] in *.
  destruct (ordered_map.step _ _ o s) as [s1|] eqn:Hstep; [|done]. simpl.
  destruct (step_wf o s s1) as (Hwf1 & Hidx1 & Hkeys1); [done|lia|done|].
  intros Hrun.
  destruct (IH s1) as (Hwf' & Hidx' & Hkeys'); [done|lia|done|].
  split_and!; [done|lia|].
  intros k i [Hk|Hk]%Hkeys'; [|right; lia].
  destruct (Hkeys1 k i Hk); [by left|by right].
Qed.

(** Containers a caller can hold: the result of a run of calls on a
    default-constructed container during which [index_] has not wrapped. *)
Lemma reachable_wf ops s :
  ordered_map.run Key_default T_default ops ordered_map.new = Some s →
  (Z.of_nat (ordered_map.total_add_index_calls ops) < Index_modulus)%Z →
  wf s ∧ index_ s = Z.of_nat (ordered_map.total_add_index_calls ops).
Proof.
  intros Hrun Hidx.
  destruct (run_wf ops ordered_map.new s) as (Hwf & Hi & _);
    [apply wf_new|simpl; lia|done|].
  split; [done|]. rewrite Hi. simpl. lia.
Qed.
End operations.

(** * The specified properties *)

Section properties.
Context {Key : Type} `{Countable Key} {T : Type}.
Variable Key_default : Key.
Variable T_default : T.
Implicit Types (L : gmap Key Index) (m : list (Key * T)) (k : Key) (v w : T).
Implicit Types (s : ordered_map.t Key T) (value : Key * T).
Implicit Types (ops : list (ordered_map.op Key T)).

Local Abbreviation keys_ := ordered_map.keys_.
Local Abbreviation map_ := ordered_map.map_.
Local Abbreviation index_ := ordered_map.index_.
Local Abbreviation run := (ordered_map.run Key_default T_default).
Local Abbreviation calls := ordered_map.total_add_index_calls.

(** ** Insertion order *)

Lemma first_inserted_distinct (seen : list Key) (l : list (Key * T)) :
  NoDup l.*1 → (∀ k, k ∈ l.*1 → k ∉ seen) → first_inserted seen l = l.
Proof.
  revert seen. induction l as [|[k v] l IH]; intros seen Hnodup Hfresh; [done|].
  rewrite fmap_cons in Hnodup, Hfresh.
  apply NoDup_cons in Hnodup as [Hk Hnodup].
  cbn [first_inserted]. rewrite decide_False by (apply Hfresh; left).
  f_equal. apply IH; [done|].
  intros x Hx [Hseen|Heq%list_elem_of_singleton]%elem_of_app.
  - by eapply Hfresh; [right|].
  - by subst.
Qed.

Lemma insert_each_first_inserted (l : list (Key * T)) s :
  wf s →
  (index_ s + Z.of_nat (length l) < Index_modulus)%Z →
  ∃ s', ordered_map.insert_each l s = Some s' ∧
    map_ s' = map_ s ++ first_inserted (map_ s).*1 l.
Proof.
  revert s. induction l as [|[k v] l IH]; intros s Hwf Hidx.
  { exists s. by rewrite app_nil_r. }
  cbn [length] in Hidx.
  destruct (insert_wf (k, v) s) as (s1 & r & Hins & Hwf1 & Hidx1 & _);
    [done|lia|].
  destruct (IH s1 Hwf1) as (s' & Hs' & Hm'); [lia|].
  exists s'. cbn [ordered_map.insert_each first_inserted]. rewrite Hins.
  split; [done|]. rewrite Hm'. simpl.
  destruct (decide (k ∈ (map_ s).*1)) as [Hk|Hk].
  - apply (wf_correspondence s k Hwf) in Hk.
    destruct (insert_existing k v s) as (pos & w & _ & Hins'); [done..|].
    rewrite Hins' in Hins. by injection Hins as <- <-.
  - assert (keys_ s !! k = None) as Hnone.
    { apply eq_None_not_Some. by rewrite (wf_correspondence s k Hwf). }
    rewrite insert_new in Hins by (done || lia). injection Hins as <- <-.
    simpl. by rewrite fmap_app, <- (assoc_L (++)).
Qed.

(** C1.  Values inserted one after the other into a default-constructed
    container: every [insert] returns, and [begin()..end()] then holds, in
    the order of their insertion, the values that brought a new key.  When
    the keys are distinct these are all the values, so iteration visits
    the keys in exactly the order of insertion.  (Fewer values than
    [2^64], the range of the counter.) *)
Theorem insertion_order_of_distinct_keys (l : list (Key * T)) :
  (Z.of_nat (length l) < Index_modulus)%Z →
  ∃ s, ordered_map.insert_each l ordered_map.new = Some s ∧
    ordered_map.entries s = first_inserted [] l ∧
    (NoDup l.*1 →
     ordered_map.entries s = l ∧ (ordered_map.entries s).*1 = l.*1).
Proof.
  intros Hlen.
  destruct (insert_each_first_inserted l ordered_map.new) as (s & Hs & Hm);
    [apply wf_new|simpl; lia|].
  exists s. unfold ordered_map.entries. rewrite Hm. simpl.
  split_and!; [done..|].
  intros Hnodup. rewrite first_inserted_distinct; [done..|].
  intros k _. apply not_elem_of_nil.
Qed.

(** ** Correspondence of [keys_] and [map_] *)

Lemma from_range_wf (init : list (Key * T)) s0 :
  ordered_map.from_range init = Some s0 →
  (Z.of_nat (length init) < Index_modulus)%Z →
  wf s0 ∧ index_ s0 = Z.of_nat (length init).
Proof.
  intros Hs0 Hidx. unfold ordered_map.from_range in Hs0.
  destruct (insert_each_wf init ordered_map.new)
    as (s' & Hs' & Hwf & Hi & _); [apply wf_new|simpl; lia|].
  rewrite Hs0 in Hs'. injection Hs' as <-. split; [done|].
  rewrite Hi. simpl. lia.
Qed.

(** Containers a caller can hold: built by one of the constructors, then
    used through a run of calls, with fewer than [2^64] evaluations of
    [index_++] in all. *)
Lemma constructed_wf (init : list (Key * T)) ops s0 s :
  ordered_map.from_range init = Some s0 →
  run ops s0 = Some s →
  (Z.of_nat (length init + calls ops) < Index_modulus)%Z →
  wf s ∧ index_ s = Z.of_nat (length init + calls ops).
Proof.
  intros Hs0 Hrun Hidx.
  destruct (from_range_wf init s0) as [Hwf0 Hi0]; [done|lia|].
  destruct (run_wf Key_default T_default ops s0 s) as (Hwf & Hi & _);
    [done|lia|done|].
  split; [done|lia].
Qed.

Lemma wf_dom s : wf s → dom (keys_ s) = list_to_set (map_ s).*1.
Proof.
  intros Hwf. apply set_eq. intros k.
  rewrite elem_of_dom, elem_of_list_to_set. by apply wf_correspondence.
Qed.

Lemma wf_NoDup s : wf s → NoDup (map_ s).*1.
Proof. intros [_ [Hsorted _] _]. by eapply sorted_NoDup. Qed.

Lemma wf_size s : wf s → base.size (keys_ s) = length (map_ s).
Proof.
  intros Hwf. rewrite <- size_dom, (wf_dom s Hwf).
  rewrite size_list_to_set by by apply wf_NoDup.
  by rewrite length_fmap.
Qed.


(** ** keys() *)

(** C8.  On every container a caller can hold, [keys()] returns, and
    returns the first components of [begin()..end()] in order.  (Fewer
    than [2^64] evaluations of [index_++] in all.) *)
Theorem keys_matches_iteration (init : list (Key * T)) ops s0 s :
  ordered_map.from_range init = Some s0 →
  run ops s0 = Some s →
  (Z.of_nat (length init + calls ops) < Index_modulus)%Z →
  ordered_map.keys Key_default s = Some (ordered_map.entries s).*1.
Proof.
  intros Hs0 Hrun Hidx.
  destruct (constructed_wf init ops s0 s) as [Hwf _]; [done..|].
  unfold ordered_map.keys, ordered_map.entries.
  rewrite (wf_size s Hwf), length_replicate, length_fmap.
  rewrite decide_True by done.
  rewrite drop_ge by (by rewrite length_replicate).
  by rewrite app_nil_r.
Qed.

(** ** Lookups *)

(** A key that is not in the ledger, searched for in a container that
    stores anything: the first comparison dereferences the failed
    lookup, whichever search it is. *)
Lemma lookup_missing_undefined s k :
  keys_ s !! k = None → map_ s ≠ [] →
  ordered_map.find s k = None ∧ ordered_map.count s k = None ∧
  ordered_map.at_ s k = None ∧ ordered_map.lower_bound s k = None ∧
  ordered_map.upper_bound s k = None ∧
  ordered_map.equal_range s k = None ∧ ordered_map.erase k s = None.
Proof.
  intros Hk Hm.
  unfold ordered_map.find, ordered_map.count, ordered_map.at_,
    ordered_map.lower_bound, ordered_map.upper_bound,
    ordered_map.equal_range, ordered_map.erase, ordered_map.comp.
  unfold std_map.count, std_map.find, std_map.at_, std_map.erase,
    std_map.equal_range.
  destruct (map_ s) as [|[x w] m]; [done|].
  rewrite lower_bound_head_None by by apply compare_helper_None_r.
  rewrite upper_bound_head_None by by apply compare_helper_None_l.
  done.
Qed.

(** On the empty container no comparison is made. *)
Lemma lookup_empty s k :
  map_ s = [] →
  ordered_map.find s k = Some 0 ∧ ordered_map.count s k = Some 0 ∧
  ordered_map.at_ s k = Some (inl out_of_range).
Proof.
  intros Hm.
  unfold ordered_map.find, ordered_map.count, ordered_map.at_.
  by rewrite Hm.
Qed.

(** A key of the ledger is found where its entry is. *)
Lemma lookup_existing s k :
  wf s → is_Some (keys_ s !! k) →
  ∃ pos w, map_ s !! pos = Some (k, w) ∧
    ordered_map.find s k = Some pos ∧ ordered_map.count s k = Some 1 ∧
    ordered_map.at_ s k = Some (inr w).
Proof.
  intros Hwf Hk. pose proof Hwf as [[_ _ Hinj] Hstore Hcorr].
  destruct (store_locate (keys_ s) (map_ s) k)
    as (m1 & m2 & Hcut & [[_ Hnotin]|[w Hm]]); [done..| |].
  { destruct Hnotin. by apply Hcorr. }
  pose proof Hcut as [? ? ? ? ?].
  exists (length m1), w.
  unfold ordered_map.find, ordered_map.count, ordered_map.at_,
    ordered_map.comp.
  rewrite Hm. split_and!.
  - by apply list_lookup_middle.
  - by apply find_present.
  - by apply count_present.
  - by apply at_present.
Qed.

(** First half of the round trip: [find] after the [insert] of a new key
    returns the iterator [insert] returned, and it points at the entry. *)
Lemma find_after_insert ops s k v :
  run ops ordered_map.new = Some s →
  keys_ s !! k = None →
  (Z.of_nat (calls ops) + 1 < Index_modulus)%Z →
  ∃ s' pos, ordered_map.insert (k, v) s = Some (s', (pos, true)) ∧
    ordered_map.find s' k = Some pos ∧
    ordered_map.entries s' !! pos = Some (k, v).
Proof.
  intros Hrun Hk Hidx.
  destruct (reachable_wf Key_default T_default ops s) as [Hwf Hi];
    [done|lia|].
  destruct (insert_wf (k, v) s) as (s' & r & Hins & Hwf' & _);
    [done|lia|].
  rewrite insert_new in Hins by (done || lia). injection Hins as <- <-.
  eexists _, _. split; [by apply insert_new; (done || lia)|].
  destruct (lookup_existing _ k Hwf') as (pos & w & Hpos & Hfind & _).
  { simpl. by rewrite lookup_insert_eq. }
  assert (pos = length (map_ s) ∧ w = v) as [-> ->].
  { simpl in Hpos.
    pose proof (wf_NoDup _ Hwf') as Hnodup. simpl in Hnodup.
    assert ((map_ s ++ [(k, v)]).*1 !! length (map_ s) = Some k) as H1.
    { rewrite fmap_app. rewrite lookup_app_r by (by rewrite length_fmap).
      by rewrite length_fmap, Nat.sub_diag. }
    assert ((map_ s ++ [(k, v)]).*1 !! pos = Some k) as H2.
    { by rewrite list_lookup_fmap, Hpos. }
    pose proof (NoDup_lookup _ _ _ _ Hnodup H2 H1) as ->.
    rewrite list_lookup_middle in Hpos by done. by injection Hpos as ->. }
  split; [done|]. unfold ordered_map.entries. simpl.
  by apply list_lookup_middle.
Qed.

(** ** Reinsertion *)

(** C6.  A live key [k] is erased; after any further calls that leave it
    absent it is inserted again.  The erase takes exactly its entry out;
    the insert gives it the current value of the counter, which is above
    its old number, and puts its entry at the end of [begin()..end()].
    (Fewer than [2^64] evaluations of [index_++] in all.) *)
Theorem reinsertion_goes_last ops mid k v s i_old s1 n s1' :
  run ops ordered_map.new = Some s →
  keys_ s !! k = Some i_old →
  ordered_map.erase k s = Some (s1, n) →
  run mid s1 = Some s1' →
  keys_ s1' !! k = None →
  (Z.of_nat (calls ops + calls mid) + 1 < Index_modulus)%Z →
  n = 1 ∧
  (∃ m1 w m2, ordered_map.entries s = m1 ++ (k, w) :: m2 ∧
              ordered_map.entries s1 = m1 ++ m2) ∧
  ∃ s2, ordered_map.insert (k, v) s1'
        = Some (s2, (length (ordered_map.entries s1'), true)) ∧
    ordered_map.entries s2 = ordered_map.entries s1' ++ [(k, v)] ∧
    keys_ s2 !! k = Some (index_ s1') ∧
    (i_old < index_ s1')%Z.
Proof.
  intros Hrun Hk Herase Hmid Hgone Hidx.
  destruct (reachable_wf Key_default T_default ops s) as [Hwf Hi];
    [done|lia|].
  destruct (erase_existing k s) as (m1 & w & m2 & Hm & Herase' & Hwf1);
    [done..|].
  rewrite Herase in Herase'. injection Herase' as -> ->.
  destruct (run_wf Key_default T_default mid _ s1' Hwf1) as (Hwf1' & Hi1 & _);
    [simpl; lia|done|]. simpl in Hi1.
  split; [done|]. split.
  { exists m1, w, m2. by split. }
  eexists. split; [apply insert_new; (done || lia)|].
  unfold ordered_map.entries. simpl. split_and!; [done| |].
  - by rewrite lookup_insert_eq.
  - destruct Hwf as [[_ Hbelow _] _ _]. apply Hbelow in Hk. lia.
Qed.

(** ** Insertion of a key that is already there *)

(** C7.  Every form of insertion, called with a live key, returns and
    leaves [keys_] (so the key's number) and [map_] (so its position)
    as they were; [index_] has been incremented all the same, and the
    number it held is the number of no entry. *)
Theorem duplicate_insertion_consumes_number ops s k n v :
  run ops ordered_map.new = Some s →
  keys_ s !! k = Some n →
  (Z.of_nat (calls ops) < Index_modulus)%Z →
  let s' := ordered_map.mk (keys_ s) (map_ s) (Index_succ (index_ s)) in
  (∃ pos w, ordered_map.entries s !! pos = Some (k, w) ∧
     ordered_map.insert (k, v) s = Some (s', (pos, false)) ∧
     ordered_map.emplace (k, v) s = Some (s', (pos, false)) ∧
     ordered_map.subscript T_default k s = Some (s', w) ∧
     (∀ hint, hint ≤ length (map_ s) →
        ordered_map.insert_hint hint (k, v) s = Some (s', pos) ∧
        ordered_map.emplace_hint hint (k, v) s = Some (s', pos))) ∧
  keys_ s' !! k = Some n ∧
  (∀ x, keys_ s' !! x ≠ Some (index_ s)).
Proof.
  intros Hrun Hk Hidx s'.
  assert (is_Some (keys_ s !! k)) as Hk' by (by exists n).
  destruct (reachable_wf Key_default T_default ops s) as [Hwf Hi];
    [done..|].
  split_and!; [|done|].
  - destruct (existing_entry k s) as (m1 & w & m2 & Hm & Hcut); [done..|].
    pose proof (insert_at_entry k v s m1 w m2 Hk' Hm Hcut) as Hins.
    exists (length m1), w. split_and!; [|done|done| |].
    + unfold ordered_map.entries. rewrite Hm. by apply list_lookup_middle.
    + by eapply subscript_at_entry.
    + intros hint Hhint.
      split; [|rewrite emplace_hint_insert_hint];
        rewrite insert_hint_insert by done; by rewrite Hins.
  - intros x Hx. simpl in Hx.
    destruct Hwf as [[_ Hbelow _] _ _]. apply Hbelow in Hx. lia.
Qed.

(** ** clear *)

(** C9.  [clear()] empties [keys_] and [map_] and does not touch
    [index_]; whatever number a key held at any moment before the
    [clear()] is below the number of every key that is live after it.
    (Fewer than [2^64] evaluations of [index_++] in all.) *)
Theorem clear_keeps_counter pre1 pre2 post s_old s s' :
  run pre1 ordered_map.new = Some s_old →
  run pre2 s_old = Some s →
  run post (ordered_map.clear s) = Some s' →
  (Z.of_nat (calls pre1 + calls pre2 + calls post) < Index_modulus)%Z →
  keys_ (ordered_map.clear s) = ∅ ∧
  ordered_map.entries (ordered_map.clear s) = [] ∧
  index_ (ordered_map.clear s) = index_ s ∧
  (index_ s ≤ index_ s')%Z ∧
  (∀ k_old i k j,
     keys_ s_old !! k_old = Some i → keys_ s' !! k = Some j → (i < j)%Z).
Proof.
  intros Hpre1 Hpre2 Hpost Hidx.
  destruct (reachable_wf Key_default T_default pre1 s_old) as [Hwf_old Hi_old];
    [done|lia|].
  destruct (run_wf Key_default T_default pre2 s_old s Hwf_old)
    as (Hwf & Hi & _); [lia|done|].
  destruct (run_wf Key_default T_default post _ s' (wf_clear _ Hwf))
    as (Hwf' & Hi' & Hkeys'); [simpl; lia|done|].
  simpl in Hi', Hkeys'.
  split_and!; [done|done|done|lia|].
  intros k_old i k j Hold Hnew.
  destruct Hwf_old as [[_ Hbelow _] _ _]. apply Hbelow in Hold.
  destruct (Hkeys' k j Hnew) as [?|?]; [by simplify_map_eq|lia].
Qed.
End properties.

(** * Two containers: what [swap] does to the comparators *)

Section swap.
Context {Key : Type} `{Countable Key} {T : Type}.
Implicit Types (h : gmap nat (two_maps.object Key T)) (p q : nat).
Implicit Types (a b o : two_maps.object Key T).

Lemma construct_own_ledger p h :
  two_maps.own_ledger p (two_maps.construct p h).
Proof.
  unfold two_maps.own_ledger, two_maps.construct.
  by rewrite lookup_insert_eq.
Qed.

(** While the comparator of [map_] points at the object's own ledger, the
    object behaves as the one-object embedding says. *)
Lemma find_own_ledger p h o key :
  h !! p = Some o → two_maps.map_compare o = p →
  two_maps.find p key h = ordered_map.find (two_maps.view o) key.
Proof.
  intros Hp Hown. unfold two_maps.find, ordered_map.find. rewrite Hp. simpl.
  f_equal. unfold two_maps.comp, ordered_map.comp. by rewrite Hown, Hp.
Qed.

Lemma insert_own_ledger p h o value :
  h !! p = Some o → two_maps.map_compare o = p →
  two_maps.insert p value h
  = (λ '(s', r),
       (<[p := two_maps.mk (ordered_map.keys_ s') (two_maps.compare_ o) p
                 (ordered_map.map_ s') (ordered_map.index_ s')]> h, r))
    <$> ordered_map.insert value (two_maps.view o).
Proof.
  intros Hp Hown. unfold two_maps.insert, ordered_map.insert. rewrite Hp.
  simpl. unfold two_maps.comp, ordered_map.comp. simpl.
  rewrite Hown, lookup_insert_eq. simpl.
  destruct (std_map.insert _ _ value) as [[m r]|]; simpl; [|done].
  rewrite insert_insert_eq. unfold two_maps.with_map_. simpl.
  by rewrite Hown.
Qed.

(** C10.  Two distinct objects, each with both comparators bound to its
    own ledger, are swapped.  Afterwards each holds the other's
    ledger contents and entries, and each one's [compare_] and the
    comparator inside its [map_] hold the address of the other object's
    ledger: the comparators went across with their pointers unchanged.
    So the entries now at [p] are ordered through the ledger at [q],
    whose contents are the ones [p] had before, and neither object's
    comparators are bound to its own ledger any more. *)
Theorem swap_crosses_comparators p q h :
  p ≠ q → two_maps.own_ledger p h → two_maps.own_ledger q h →
  ∃ a b h' a' b',
    h !! p = Some a ∧ h !! q = Some b ∧
    two_maps.swap p q h = Some h' ∧
    h' !! p = Some a' ∧ h' !! q = Some b' ∧
    two_maps.keys_ a' = two_maps.keys_ b ∧
    two_maps.map_ a' = two_maps.map_ b ∧
    two_maps.keys_ b' = two_maps.keys_ a ∧
    two_maps.map_ b' = two_maps.map_ a ∧
    two_maps.compare_ a' = q ∧ two_maps.map_compare a' = q ∧
    two_maps.compare_ b' = p ∧ two_maps.map_compare b' = p ∧
    (∀ x y, two_maps.comp h' a' x y
            = compare_helper (two_maps.keys_ a) x y) ∧
    (∀ x y, two_maps.comp h' b' x y
            = compare_helper (two_maps.keys_ b) x y) ∧
    ¬ two_maps.own_ledger p h' ∧ ¬ two_maps.own_ledger q h'.
Proof.
  intros Hpq [Hp1 Hp2] [Hq1 Hq2].
  destruct (h !! p) as [a|] eqn:Hp; [|done].
  destruct (h !! q) as [b|] eqn:Hq; [|done].
  injection Hp1 as Hp1. injection Hp2 as Hp2.
  injection Hq1 as Hq1. injection Hq2 as Hq2.
  set (a' := two_maps.mk (two_maps.keys_ b) (two_maps.compare_ b)
               (two_maps.map_compare b) (two_maps.map_ b)
               (two_maps.index_ a)).
  set (b' := two_maps.mk (two_maps.keys_ a) (two_maps.compare_ a)
               (two_maps.map_compare a) (two_maps.map_ a)
               (two_maps.index_ b)).
  assert (<[q := b']> (<[p := a']> h) !! p = Some a') as Hp'.
  { rewrite lookup_insert_ne by done. by rewrite lookup_insert_eq. }
  assert (<[q := b']> (<[p := a']> h) !! q = Some b') as Hq'
    by (by rewrite lookup_insert_eq).
  exists a, b, (<[q := b']> (<[p := a']> h)), a', b'.
  split_and!; try done.
  - unfold two_maps.swap. rewrite Hp, Hq. simpl.
    by rewrite decide_False by done.
  - intros x y. unfold two_maps.comp. simpl. by rewrite Hq2, Hq'.
  - intros x y. unfold two_maps.comp. simpl. by rewrite Hp2, Hp'.
  - intros [Hc _]. rewrite Hp' in Hc. simpl in Hc. congruence.
  - intros [Hc _]. rewrite Hq' in Hc. simpl in Hc. congruence.
Qed.
End swap.

(** * Further properties of the member functions *)

Section further_properties.
Context {Key : Type} `{Countable Key} {T : Type}.
Variable Key_default : Key.
Variable T_default : T.
Implicit Types (L : gmap Key Index) (m : list (Key * T)) (k : Key) (v w : T).
Implicit Types (s : ordered_map.t Key T) (value : Key * T).
Implicit Types (ops : list (ordered_map.op Key T)).

Local Abbreviation keys_ := ordered_map.keys_.
Local Abbreviation map_ := ordered_map.map_.
Local Abbreviation index_ := ordered_map.index_.
Local Abbreviation run := (ordered_map.run Key_default T_default).
Local Abbreviation calls := ordered_map.total_add_index_calls.

(** ** Where an entry sits *)

Lemma before_not_after L (e1 e2 : Key * T) :
  before L e1 e2 → compare_helper L e2.1 e1.1 = Some false.
Proof.
  intros (i & j & Hi & Hj & Hlt)%before_numbers.
  rewrite (compare_helper_Some _ _ _ j i) by done.
  unfold Compare. f_equal. apply Z.ltb_ge. lia.
Qed.

(** In a container in comparator order, any entry cuts the sequence at
    its own place. *)
Lemma store_entry_cut L m1 k w m2 :
  store_ok L (m1 ++ (k, w) :: m2) → cut L k m1 m2.
Proof.
  intros [Hsorted Hin].
  apply StronglySorted_app in Hsorted as (Hcross & _ & Hback).
  apply StronglySorted_inv in Hback as [_ Hback].
  apply Forall_app in Hin as [_ [[n Hk] _]%Forall_cons]. simpl in Hk.
  assert (Forall (λ e, before L e (k, w)) m1) as Hfront.
  { apply Forall_forall. intros e He. apply Hcross; [done|left]. }
  split.
  - exact Hfront.
  - eapply Forall_impl; [exact Hfront|]. intros e He.
    by apply (before_not_after L e (k, w)).
  - exact Hback.
  - eapply Forall_impl; [exact Hback|]. intros e He.
    by apply (before_not_after L (k, w) e).
  - by eapply compare_helper_irrefl.
Qed.

Lemma wf_entry_cut s m1 k w m2 :
  wf s → map_ s = m1 ++ (k, w) :: m2 →
  cut (keys_ s) k m1 m2 ∧ is_Some (keys_ s !! k).
Proof.
  intros [_ Hstore _] Hm. rewrite Hm in Hstore. split.
  - by eapply store_entry_cut.
  - eapply store_key_in_ledger; [done|].
    rewrite fmap_app, fmap_cons. apply elem_of_app. right. left.
Qed.

(** Every search, for the key of an entry. *)
Lemma searches_at_entry s m1 k w m2 :
  wf s → map_ s = m1 ++ (k, w) :: m2 →
  ordered_map.find s k = Some (length m1) ∧
  ordered_map.count s k = Some 1 ∧
  ordered_map.at_ s k = Some (inr w) ∧
  ordered_map.lower_bound s k = Some (length m1) ∧
  ordered_map.upper_bound s k = Some (S (length m1)) ∧
  ordered_map.equal_range s k = Some (length m1, S (length m1)).
Proof.
  intros Hwf Hm. destruct (wf_entry_cut s m1 k w m2) as [[? ? ? ? ?] _];
    [done..|].
  unfold ordered_map.find, ordered_map.count, ordered_map.at_,
    ordered_map.lower_bound, ordered_map.upper_bound,
    ordered_map.equal_range, ordered_map.comp, std_map.equal_range.
  rewrite Hm.
  rewrite find_present, count_present, at_present, lower_bound_present,
    upper_bound_present by done.
  done.
Qed.

Lemma at_entry s k w :
  wf s → (k, w) ∈ map_ s → ordered_map.at_ s k = Some (inr w).
Proof.
  intros Hwf (m1 & m2 & Hm)%list_elem_of_split.
  by destruct (searches_at_entry s m1 k w m2) as (_ & _ & Hat & _).
Qed.

(** The entries with a given key are at most one. *)
Lemma wf_entry_unique s k w w' :
  wf s → (k, w) ∈ map_ s → (k, w') ∈ map_ s → w = w'.
Proof.
  intros Hwf Hw Hw'.
  pose proof (at_entry s k w' Hwf Hw') as Hat.
  rewrite (at_entry s k w Hwf Hw) in Hat. by injection Hat.
Qed.

(** ** The comparator on the keys of a container *)

(** X1.  On a container a caller can hold, [compare_helper] is defined
    exactly on pairs of stored keys, and on them it is a strict total
    order: irreflexive, transitive, and any two distinct stored keys are
    ordered one way or the other. *)
Theorem compare_helper_strict_total_order ops s :
  run ops ordered_map.new = Some s →
  (Z.of_nat (calls ops) < Index_modulus)%Z →
  (∀ x y, is_Some (compare_helper (keys_ s) x y)
          ↔ x ∈ (ordered_map.entries s).*1 ∧ y ∈ (ordered_map.entries s).*1) ∧
  (∀ x, compare_helper (keys_ s) x x ≠ Some true) ∧
  (∀ x y z, compare_helper (keys_ s) x y = Some true →
            compare_helper (keys_ s) y z = Some true →
            compare_helper (keys_ s) x z = Some true) ∧
  (∀ x y, x ∈ (ordered_map.entries s).*1 → y ∈ (ordered_map.entries s).*1 →
          x ≠ y →
          compare_helper (keys_ s) x y = Some true ∨
          compare_helper (keys_ s) y x = Some true).
Proof.
  intros Hrun Hidx.
  destruct (reachable_wf Key_default T_default ops s) as [Hwf _]; [done..|].
  unfold ordered_map.entries. split_and!.
  - intros x y. rewrite <- !(wf_correspondence s) by done.
    unfold compare_helper.
    destruct (keys_ s !! x), (keys_ s !! y); simpl;
      split; try (intros [[??] [??]]); try (intros [??]); by eauto.
  - intros x (i & j & Hi & Hj & Hlt)%compare_helper_true.
    rewrite Hi in Hj. injection Hj as ->. lia.
  - intros x y z (i & j & Hi & Hj & Hij)%compare_helper_true
      (j' & l & Hj' & Hl & Hjl)%compare_helper_true.
    rewrite Hj in Hj'. injection Hj' as <-.
    apply compare_helper_true. exists i, l. split_and!; [done..|lia].
  - intros x y [i Hi]%(wf_correspondence s) [j Hj]%(wf_correspondence s) Hne;
      [|done..].
    destruct (Z.lt_trichotomy i j) as [Hlt|[->|Hgt]].
    + left. apply compare_helper_true. by exists i, j.
    + destruct Hne. destruct Hwf as [[_ _ Hinj] _ _]. by eapply Hinj.
    + right. apply compare_helper_true. by exists j, i.
Qed.

(** X2.  On a container a caller can hold, iteration is by sequence
    number: of two stored keys the one met first by [begin()..end()] is the
    one the comparator orders first.  The numbers are distinct, below
    [index_], and [index_] is the number of times [index_++] was
    evaluated. *)
Theorem iteration_follows_sequence_numbers ops s :
  run ops ordered_map.new = Some s →
  (Z.of_nat (calls ops) < Index_modulus)%Z →
  (∀ i j x y,
     (ordered_map.entries s).*1 !! i = Some x →
     (ordered_map.entries s).*1 !! j = Some y →
     (i < j ↔ compare_helper (keys_ s) x y = Some true)) ∧
  (∀ k n, keys_ s !! k = Some n → (0 ≤ n < index_ s)%Z) ∧
  (∀ k1 k2 n, keys_ s !! k1 = Some n → keys_ s !! k2 = Some n → k1 = k2) ∧
  index_ s = Z.of_nat (calls ops).
Proof.
  intros Hrun Hidx.
  destruct (reachable_wf Key_default T_default ops s) as [Hwf Hi]; [done..|].
  pose proof Hwf as [[_ Hbelow Hinj] [Hsorted _] _].
  split_and!; [|done..].
  assert (∀ i j x y,
            (map_ s).*1 !! i = Some x → (map_ s).*1 !! j = Some y →
            i < j → compare_helper (keys_ s) x y = Some true) as Hfwd.
  { intros i j x y Hx Hy Hlt.
    rewrite list_lookup_fmap in Hx, Hy.
    destruct (map_ s !! i) as [[x' wx]|] eqn:Hx'; [|done].
    destruct (map_ s !! j) as [[y' wy]|] eqn:Hy'; [|done].
    simpl in Hx, Hy. injection Hx as ->. injection Hy as ->.
    apply list_elem_of_split_length in Hx' as (m1 & m2 & Hm & ->).
    rewrite Hm in Hy', Hsorted.
    rewrite lookup_app_r, lookup_cons_ne_0 in Hy' by lia.
    apply StronglySorted_app in Hsorted as (_ & _ & Hback).
    apply StronglySorted_inv in Hback as [_ Hback].
    rewrite Forall_forall in Hback.
    apply (Hback (y, wy)). apply list_elem_of_lookup. eauto. }
  unfold ordered_map.entries. intros i j x y Hx Hy. split; [by eauto|].
  intros (nx & ny & Hnx & Hny & Hlt)%compare_helper_true.
  destruct (Nat.lt_trichotomy i j) as [?|[->|Hgt]]; [done| |].
  - rewrite Hx in Hy. injection Hy as ->.
    rewrite Hnx in Hny. injection Hny as ->. lia.
  - apply (Hfwd j i y x Hy Hx) in Hgt.
    apply compare_helper_true in Hgt as (ny' & nx' & Hny' & Hnx' & Hlt').
    rewrite Hnx in Hnx'. rewrite Hny in Hny'.
    injection Hnx' as <-. injection Hny' as <-. lia.
Qed.

(** ** Lookups *)

(** X3.  On a container a caller can hold, the searches for a key [k]
    agree with iteration: [at(k)] returns [w] exactly when [(k, w)] is an
    entry of [begin()..end()], and then [find] and [lower_bound] return
    its position, [upper_bound] the next one, [count] is 1. *)
Theorem lookup_of_stored_key ops s k w :
  run ops ordered_map.new = Some s →
  (Z.of_nat (calls ops) < Index_modulus)%Z →
  (ordered_map.at_ s k = Some (inr w) ↔ (k, w) ∈ ordered_map.entries s) ∧
  ((k, w) ∈ ordered_map.entries s →
   ∃ pos, ordered_map.entries s !! pos = Some (k, w) ∧
     ordered_map.find s k = Some pos ∧
     ordered_map.count s k = Some 1 ∧
     ordered_map.lower_bound s k = Some pos ∧
     ordered_map.upper_bound s k = Some (S pos) ∧
     ordered_map.equal_range s k = Some (pos, S pos)).
Proof.
  intros Hrun Hidx.
  destruct (reachable_wf Key_default T_default ops s) as [Hwf _]; [done..|].
  unfold ordered_map.entries. split; [split|].
  - intros Hat.
    destruct (keys_ s !! k) as [n|] eqn:Hk.
    + destruct (existing_entry k s) as (m1 & w' & m2 & Hm & _);
        [done|by exists n|].
      destruct (searches_at_entry s m1 k w' m2) as (_ & _ & Hat' & _);
        [done..|].
      rewrite Hat in Hat'. injection Hat' as ->.
      rewrite Hm. apply elem_of_app. right. left.
    + unfold ordered_map.at_, std_map.at_, ordered_map.comp in Hat.
      destruct (map_ s) as [|[x wx] m]; [done|].
      rewrite lower_bound_head_None in Hat; [done|].
      by apply compare_helper_None_r.
  - by apply at_entry.
  - intros (m1 & m2 & Hm)%list_elem_of_split.
    destruct (searches_at_entry s m1 k w m2) as (? & ? & _ & ? & ? & ?);
      [done..|].
    exists (length m1). split_and!; [|done..].
    rewrite Hm. by apply list_lookup_middle.
Qed.

(** X4.  A key that is not in [keys_], on any container: every search
    returns what it returns for a missing key ([end()], 0,
    [std::out_of_range]) when nothing is stored, and is undefined as soon
    as something is, because its first comparison dereferences the failed
    lookup. *)
Theorem lookup_of_missing_key s k :
  keys_ s !! k = None →
  let empty {A} (r : A) := if decide (map_ s = []) then Some r else None in
  ordered_map.find s k = empty 0 ∧
  ordered_map.count s k = empty 0 ∧
  ordered_map.at_ s k = empty (inl out_of_range) ∧
  ordered_map.lower_bound s k = empty 0 ∧
  ordered_map.upper_bound s k = empty 0 ∧
  ordered_map.equal_range s k = empty (0, 0) ∧
  ordered_map.erase k s = empty (s, 0).
Proof.
  intros Hk empty. subst empty. cbv beta.
  destruct (decide (map_ s = [])) as [Hm|Hm].
  - unfold ordered_map.find, ordered_map.count, ordered_map.at_,
      ordered_map.lower_bound, ordered_map.upper_bound,
      ordered_map.equal_range, ordered_map.erase.
    rewrite Hm. simpl. split_and!; try done.
    rewrite <- Hm. by rewrite with_map_id.
  - destruct (lookup_missing_undefined s k) as (? & ? & ? & ? & ? & ? & ?);
      done.
Qed.

(** ** Insertion *)

(** X5.  [insert] on a container a caller can hold always returns.  The
    flag is [true] exactly when the key was not stored; then the value is
    stored and [size()] grows by one.  Otherwise the stored value stays
    (nothing is overwritten) and so does [size()].  Either way the
    iterator points at the entry with the key, [find] returns the same
    iterator afterwards and [at] the entry's value. *)
Theorem insert_then_find ops s k v :
  run ops ordered_map.new = Some s →
  (Z.of_nat (calls ops) + 1 < Index_modulus)%Z →
  ∃ s' pos b w,
    ordered_map.insert (k, v) s = Some (s', (pos, b)) ∧
    ordered_map.entries s' !! pos = Some (k, w) ∧
    ordered_map.find s' k = Some pos ∧
    ordered_map.at_ s' k = Some (inr w) ∧
    (b = true ↔ keys_ s !! k = None) ∧
    (b = true → w = v ∧ ordered_map.size s' = S (ordered_map.size s)) ∧
    (b = false →
     ordered_map.entries s !! pos = Some (k, w) ∧
     ordered_map.entries s' = ordered_map.entries s).
Proof.
  intros Hrun Hidx.
  destruct (reachable_wf Key_default T_default ops s) as [Hwf Hi]; [done|lia|].
  destruct (insert_wf (k, v) s) as (s' & r & Hins & Hwf' & _); [done|lia|].
  destruct (keys_ s !! k) as [n|] eqn:Hk.
  - destruct (existing_entry k s) as (m1 & w & m2 & Hm & Hcut);
      [done|by exists n|].
    rewrite (insert_at_entry k v s m1 w m2) in Hins by (done || by exists n).
    injection Hins as <- <-.
    destruct (searches_at_entry s m1 k w m2) as (Hfind & _ & Hat & _);
      [done..|].
    exists (ordered_map.mk (keys_ s) (map_ s) (Index_succ (index_ s))),
      (length m1), false, w.
    unfold ordered_map.entries. simpl.
    assert (map_ s !! length m1 = Some (k, w)) as Hpos
      by (rewrite Hm; by apply list_lookup_middle).
    split_and!; try done.
    by eapply insert_at_entry.
  - rewrite insert_new in Hins by (done || lia). injection Hins as <- <-.
    destruct (searches_at_entry _ (map_ s) k v [] Hwf')
      as (Hfind & _ & Hat & _); [done|].
    eexists _, (length (map_ s)), true, v.
    split; [apply insert_new; (done || lia)|].
    unfold ordered_map.entries, ordered_map.size. simpl.
    split_and!; try done.
    + by apply list_lookup_middle.
    + intros _. split; [done|]. rewrite length_app. simpl. lia.
Qed.

Lemma subscript_via_insert k s s' pos b x w :
  ordered_map.insert (k, T_default) s = Some (s', (pos, b)) →
  map_ s' !! pos = Some (x, w) →
  ordered_map.subscript T_default k s = Some (s', w).
Proof.
  unfold ordered_map.insert, ordered_map.subscript, std_map.subscript.
  simpl. destruct (std_map.insert _ _ (k, T_default)) as [[m1 r]|]; [|done].
  simpl. intros [= <- ->] Hpos. simpl in *. by rewrite Hpos.
Qed.

(** X6.  [operator[]] on a container a caller can hold always returns, and
    the value it returns is the one [at] returns afterwards.  For a key
    that was not stored it is [T{}], entered at the end of
    [begin()..end()]; for a stored key it is the stored value and the
    entries stay as they were. *)
Theorem subscript_then_at ops s k :
  run ops ordered_map.new = Some s →
  (Z.of_nat (calls ops) + 1 < Index_modulus)%Z →
  ∃ s' v,
    ordered_map.subscript T_default k s = Some (s', v) ∧
    ordered_map.at_ s' k = Some (inr v) ∧
    (keys_ s !! k = None →
     v = T_default ∧
     ordered_map.entries s' = ordered_map.entries s ++ [(k, T_default)]) ∧
    (∀ w, (k, w) ∈ ordered_map.entries s →
          v = w ∧ ordered_map.entries s' = ordered_map.entries s).
Proof.
  intros Hrun Hidx.
  destruct (reachable_wf Key_default T_default ops s) as [Hwf Hi]; [done|lia|].
  destruct (insert_then_find ops s k T_default Hrun Hidx)
    as (s' & pos & b & w & Hins & Hpos & _ & Hat & Hb & Htrue & Hfalse).
  exists s', w. split_and!; [by eapply subscript_via_insert|done| |].
  - intros Hk. apply Hb in Hk as ->. destruct Htrue as [-> _]; [done|].
    split; [done|].
    rewrite insert_new in Hins by (done || lia || by apply Hb).
    by injection Hins as <- _.
  - intros w' Hw'. unfold ordered_map.entries in *.
    assert (b = false) as ->.
    { destruct b; [|done]. destruct Hb as [Hb _].
      assert (is_Some (keys_ s !! k)) as [n Hn].
      { apply (wf_correspondence s k Hwf).
        apply list_elem_of_fmap. by exists (k, w'). }
      rewrite Hb in Hn; done. }
    destruct Hfalse as [Hentry Hsame]; [done|]. split; [|done].
    eapply (wf_entry_unique s k); [done| |done].
    apply list_elem_of_lookup. eauto.
Qed.

(** X7.  The range and initializer-list forms of [insert] number every
    key before [map_] sees the first value; on a container a caller can
    hold the outcome is still that of one [insert] per element: the values
    that bring a new key are appended in their order. *)
Theorem insert_range_as_inserts ops s (l : list (Key * T)) :
  run ops ordered_map.new = Some s →
  (Z.of_nat (calls ops + length l) < Index_modulus)%Z →
  ∃ s',
    ordered_map.insert_range l s = Some s' ∧
    ordered_map.insert_each l s = Some s' ∧
    ordered_map.entries s'
    = ordered_map.entries s ++ first_inserted (ordered_map.entries s).*1 l.
Proof.
  intros Hrun Hidx.
  destruct (reachable_wf Key_default T_default ops s) as [Hwf Hi]; [done|lia|].
  destruct (insert_each_first_inserted l s) as (s' & Hs' & Hm'); [done|lia|].
  exists s'. rewrite insert_range_insert_each by (done || lia). done.
Qed.

(** ** Erasure *)

(** X8.  On a container a caller can hold, [erase(pos)] with an iterator
    to an entry and [erase(key)] with that entry's key leave the same
    container: the entry is gone from [begin()..end()], its key from
    [keys_], the counter is untouched.  [erase(pos)] returns [pos], now
    the iterator to the entry that followed; [erase(key)] returns 1.
    [erase(end())] is undefined. *)
Theorem erase_by_iterator_or_key ops s pos k w :
  run ops ordered_map.new = Some s →
  (Z.of_nat (calls ops) < Index_modulus)%Z →
  ordered_map.entries s !! pos = Some (k, w) →
  let s' := ordered_map.mk (delete k (keys_ s)) (delete pos (map_ s))
              (index_ s) in
  (ordered_map.erase_pos pos s = Some (s', pos) ∧
   ordered_map.erase k s = Some (s', 1) ∧
   (k ∉ (ordered_map.entries s').*1) ∧
   S (ordered_map.size s') = ordered_map.size s ∧
   ordered_map.erase_pos (length (ordered_map.entries s)) s = None).
Proof.
  intros Hrun Hidx Hpos s'. unfold ordered_map.entries in *.
  destruct (reachable_wf Key_default T_default ops s) as [Hwf Hi]; [done..|].
  pose proof Hpos as (m1 & m2 & Hm & ->)%list_elem_of_split_length.
  destruct (wf_entry_cut s m1 k w m2) as [[? ? ? ? ?] Hk]; [done..|].
  assert (delete (length m1) (map_ s) = m1 ++ m2) as Hdel.
  { rewrite Hm, delete_take_drop.
    by rewrite take_app_length, drop_S_app_length. }
  subst s'. rewrite Hdel. split_and!.
  - unfold ordered_map.erase_pos. rewrite Hpos. simpl.
    unfold ordered_map.with_map_. simpl.
    by rewrite <- delete_take_drop, Hdel.
  - unfold ordered_map.erase, ordered_map.comp. rewrite Hm.
    by rewrite erase_present by done.
  - simpl. pose proof (wf_NoDup s Hwf) as Hnodup.
    rewrite Hm, fmap_app, fmap_cons in Hnodup.
    apply NoDup_app in Hnodup as (_ & Hfront & [Hback _]%NoDup_cons).
    rewrite fmap_app. intros [Hin|Hin]%elem_of_app; [|done].
    apply (Hfront k Hin). left.
  - unfold ordered_map.size. simpl. rewrite Hm, !length_app. simpl. lia.
  - unfold ordered_map.erase_pos.
    by rewrite lookup_ge_None_2.
Qed.

(** X9.  [erase(first, last)] on a container a caller can hold: for
    iterators with [first] not behind [last] it takes exactly the entries
    of the range out of [begin()..end()] and exactly their keys out of
    [keys_], and returns [first]; erasing [begin()..end()] leaves the
    container as [clear()] does.  With [last] in front of [first], or
    behind [end()], it is undefined. *)
Theorem erase_range_removes_range ops s first last :
  run ops ordered_map.new = Some s →
  (Z.of_nat (calls ops) < Index_modulus)%Z →
  (first ≤ last ≤ length (ordered_map.entries s) →
   ∃ s', ordered_map.erase_range first last s = Some (s', first) ∧
     ordered_map.entries s'
     = take first (ordered_map.entries s) ++ drop last (ordered_map.entries s) ∧
     index_ s' = index_ s ∧
     (∀ x, keys_ s' !! x
           = if decide (x ∈ (ordered_map.entries s').*1)
             then keys_ s !! x else None)) ∧
  (¬ first ≤ last ≤ length (ordered_map.entries s) →
   ordered_map.erase_range first last s = None) ∧
  ordered_map.erase_range 0 (length (ordered_map.entries s)) s
  = Some (ordered_map.clear s, 0).
Proof.
  intros Hrun Hidx. unfold ordered_map.entries.
  destruct (reachable_wf Key_default T_default ops s) as [Hwf Hi]; [done..|].
  assert (∀ first last, first ≤ last ≤ length (map_ s) →
    ∃ s', ordered_map.erase_range first last s = Some (s', first) ∧
      map_ s' = take first (map_ s) ++ drop last (map_ s) ∧
      index_ s' = index_ s ∧
      (∀ x, keys_ s' !! x
            = if decide (x ∈ (map_ s').*1) then keys_ s !! x else None))
    as Hvalid.
  { clear first last. intros first last Hrange.
    destruct (ordered_map.erase_range first last s) as [[s' r]|] eqn:Herase.
    2:{ unfold ordered_map.erase_range in Herase.
        by rewrite decide_True in Herase by done. }
    destruct (erase_range_wf first last s s' r Hwf Herase)
      as (Hwf' & Hidx' & Hsub).
    unfold ordered_map.erase_range in Herase.
    rewrite decide_True in Herase by done.
    destruct (foldl_remove_index
                (take (last - first) (drop first (map_ s))).*1 s)
      as (Hkeys & Hmap & Hindex).
    unfold std_map.erase_range in Herase. rewrite Hmap in Herase.
    injection Herase as <- <-.
    eexists. split; [done|]. unfold ordered_map.with_map_.
    cbn [ordered_map.map_ ordered_map.index_ ordered_map.keys_].
    split_and!; [done..|].
    intros x. case_decide as Hx.
    - apply (store_key_in_ledger _ _ _ (wf_store _ Hwf')) in Hx as [n Hn].
      simpl in Hn. cbn [ordered_map.keys_] in Hsub.
      rewrite Hn. symmetry. by eapply lookup_weaken.
    - apply eq_None_not_Some. intros Hsome. apply Hx.
      by apply (wf_ledger_in_store _ Hwf'). }
  split_and!.
  - apply Hvalid.
  - intros Hrange. unfold ordered_map.erase_range.
    by rewrite decide_False by done.
  - destruct (Hvalid 0 (length (map_ s))) as (s' & -> & Hm' & Hi' & Hk');
      [lia|].
    rewrite take_0, drop_all in Hm'. simpl in Hm'.
    do 2 f_equal. destruct s' as [L' m' i']. simpl in *. subst.
    unfold ordered_map.clear. f_equal.
    apply map_eq. intros x. rewrite Hk', fin_maps.lookup_empty.
    rewrite decide_False; [done|]. apply not_elem_of_nil.
Qed.

(** ** What a call leaves alone *)

(** X10.  On a container a caller can hold, [insert], [operator[]] and
    [erase(key)] with a key [k] leave every other stored key with its
    sequence number, its value and hence its order among the others. *)
Theorem other_keys_untouched ops s k k' n' w' :
  run ops ordered_map.new = Some s →
  (Z.of_nat (calls ops) + 1 < Index_modulus)%Z →
  k' ≠ k →
  keys_ s !! k' = Some n' →
  (k', w') ∈ ordered_map.entries s →
  ∀ s1,
    (∃ v r, ordered_map.insert (k, v) s = Some (s1, r)) ∨
    (∃ v, ordered_map.subscript T_default k s = Some (s1, v)) ∨
    (∃ c, ordered_map.erase k s = Some (s1, c)) →
    keys_ s1 !! k' = Some n' ∧
    (k', w') ∈ ordered_map.entries s1 ∧
    ordered_map.at_ s1 k' = Some (inr w').
Proof.
  intros Hrun Hidx Hne Hn' Hw' s1 Hcall. unfold ordered_map.entries in *.
  destruct (reachable_wf Key_default T_default ops s) as [Hwf Hi]; [done|lia|].
  assert (wf s1 ∧ keys_ s1 !! k' = Some n' ∧ (k', w') ∈ map_ s1)
    as (Hwf1 & Hn1 & Hw1).
  { assert (∀ v r, ordered_map.insert (k, v) s = Some (s1, r) →
              wf s1 ∧ keys_ s1 !! k' = Some n' ∧ (k', w') ∈ map_ s1)
      as Hinsert.
    { intros v r Hins.
      destruct (insert_wf (k, v) s)
        as (s2 & r2 & Hins2 & Hwf2 & _ & _ & _ & Hkeys2); [done|lia|].
      rewrite Hins in Hins2. injection Hins2 as <- <-.
      split_and!; [done| |].
      - by rewrite Hkeys2, KeyContainer_insert_lookup, Hn'.
      - destruct (keys_ s !! k) as [n|] eqn:Hk.
        + destruct (insert_existing k v s) as (pos & w & _ & Hins');
            [done|by exists n|].
          rewrite Hins' in Hins. by injection Hins as <- _.
        + rewrite insert_new in Hins by (done || lia).
          injection Hins as <- _. simpl. apply elem_of_app. by left. }
    destruct Hcall as [(v & r & Hins)|[(v & Hsub)|(c & Herase)]].
    - by eapply Hinsert.
    - destruct (subscript_wf T_default k s) as (s2 & v2 & r & Hsub2 & Hins);
        [done|lia|].
      rewrite Hsub in Hsub2. injection Hsub2 as <- <-.
      by eapply Hinsert.
    - destruct (keys_ s !! k) as [n|] eqn:Hk.
      + destruct (erase_existing k s) as (m1 & w & m2 & Hm & Herase' & Hwf1);
          [done|by exists n|].
        rewrite Herase in Herase'. injection Herase' as -> ->.
        split_and!; [done| |].
        * simpl. by rewrite lookup_delete_ne.
        * simpl. rewrite Hm in Hw'.
          apply elem_of_app in Hw' as [?|Hw']; [apply elem_of_app; by left|].
          apply elem_of_cons in Hw' as [[= ? ?]|?]; [done|].
          apply elem_of_app. by right.
      + rewrite erase_missing in Herase by done.
        case_decide; [|done]. by injection Herase as <- _. }
  split_and!; [done..|]. by apply at_entry.
Qed.

(** ** clear, then use *)

(** X11.  After [clear()], values inserted one after the other are
    iterated in the order of their first insertion, as on a new container,
    whatever was stored before. *)
Theorem clear_then_insert ops s (l : list (Key * T)) :
  run ops ordered_map.new = Some s →
  (Z.of_nat (calls ops + length l) < Index_modulus)%Z →
  ∃ s', ordered_map.insert_each l (ordered_map.clear s) = Some s' ∧
    ordered_map.entries s' = first_inserted [] l ∧
    (NoDup l.*1 → ordered_map.entries s' = l).
Proof.
  intros Hrun Hidx.
  destruct (reachable_wf Key_default T_default ops s) as [Hwf Hi]; [done|lia|].
  destruct (insert_each_first_inserted l (ordered_map.clear s))
    as (s' & Hs' & Hm'); [by apply wf_clear|simpl; lia|].
  exists s'. unfold ordered_map.entries. rewrite Hm'. simpl.
  split_and!; [done..|].
  intros Hnodup. apply first_inserted_distinct; [done|].
  intros x _. apply not_elem_of_nil.
Qed.

(** ** The counter *)

Lemma Index_succ_iter i n :
  (0 ≤ i < Index_modulus)%Z →
  Nat.iter n Index_succ i = ((i + Z.of_nat n) `mod` Index_modulus)%Z.
Proof.
  intros Hi. induction n as [|n IH].
  - simpl. rewrite Z.add_0_r. symmetry. by apply Z.mod_small.
  - rewrite Nat.iter_succ, IH. unfold Index_succ.
    rewrite Z.add_mod_idemp_l by (unfold Index_modulus; lia).
    f_equal. lia.
Qed.

Lemma repeated_subscript_at_entry k s m1 w m2 n :
  is_Some (keys_ s !! k) →
  map_ s = m1 ++ (k, w) :: m2 → cut (keys_ s) k m1 m2 →
  run (replicate n (ordered_map.Subscript k)) s
  = Some (ordered_map.mk (keys_ s) (map_ s)
            (Nat.iter n Index_succ (index_ s))).
Proof.
  revert s. induction n as [|n IH]; intros s Hk Hm Hcut.
  { simpl. by destruct s. }
  rewrite Nat.iter_succ_r. cbn [replicate ordered_map.run ordered_map.step].
  rewrite (subscript_at_entry T_default k s m1 w m2) by done. simpl.
  by rewrite IH.
Qed.

(** X12.  [operator[]] called [n] times with a stored key, on a container
    a caller can hold, always returns and changes nothing but [index_],
    which has advanced by [n] modulo [2^64]: the counter is incremented
    whether or not a number is handed out, and wraps. *)
Theorem repeated_subscript_advances_counter ops s k i n :
  run ops ordered_map.new = Some s →
  (Z.of_nat (calls ops) < Index_modulus)%Z →
  keys_ s !! k = Some i →
  run (replicate n (ordered_map.Subscript k)) s
  = Some (ordered_map.mk (keys_ s) (map_ s)
            ((index_ s + Z.of_nat n) `mod` Index_modulus)%Z).
Proof.
  intros Hrun Hidx Hk.
  destruct (reachable_wf Key_default T_default ops s) as [Hwf Hi]; [done..|].
  destruct (existing_entry k s) as (m1 & w & m2 & Hm & Hcut);
    [done|by exists i|].
  rewrite (repeated_subscript_at_entry k s m1 w m2) by (done || by exists i).
  rewrite Index_succ_iter; [done|].
  by destruct Hwf as [[? _ _] _ _].
Qed.

Lemma insert_equivalent (comp : Key → Key → option bool) m1 x w m2 k v :
  Forall (λ e, comp e.1 k = Some true) m1 →
  comp x k = Some false → comp k x = Some false →
  std_map.insert comp (m1 ++ (x, w) :: m2) (k, v)
  = Some (m1 ++ (x, w) :: m2, (length m1, false)).
Proof.
  intros Hfront Hxk Hkx. unfold std_map.insert. simpl.
  rewrite lower_bound_app by done. simpl. rewrite Hxk. simpl.
  rewrite Nat.add_0_r, list_lookup_middle by done. by rewrite Hkx.
Qed.

(** X13.  When [index_] holds the sequence number of a stored key [x]
    (the counter has wrapped onto it), [insert] of a key that is not in
    [keys_] enters the key in [keys_] with that same number, and [map_]
    takes it for equivalent to [x]: nothing is stored, the flag is [false]
    and the iterator points at [x]'s entry.  The key is then in [keys_] and
    not in [map_]. *)
Theorem insert_on_wrapped_counter s m1 x w m2 k v :
  store_ok (keys_ s) (map_ s) →
  map_ s = m1 ++ (x, w) :: m2 →
  keys_ s !! x = Some (index_ s) →
  keys_ s !! k = None →
  let s' := ordered_map.mk (<[k := index_ s]> (keys_ s)) (map_ s)
              (Index_succ (index_ s)) in
  (ordered_map.insert (k, v) s = Some (s', (length m1, false)) ∧
   keys_ s' !! k = Some (index_ s) ∧
   (k ∉ (ordered_map.entries s').*1)).
Proof.
  intros Hstore Hm Hx Hk s'. subst s'. simpl.
  assert (k ∉ (map_ s).*1) as Hnotin.
  { intros [n Hn]%(store_key_in_ledger _ _ _ Hstore). congruence. }
  split_and!; [|by rewrite lookup_insert_eq|done].
  rewrite Hm in Hstore. apply store_entry_cut in Hstore as [Hfront _ _ _ _].
  unfold ordered_map.insert, ordered_map.comp, ordered_map.add_index,
    ordered_map.with_map_.
  simpl. unfold KeyContainer_insert. simpl. rewrite Hk, Hm.
  assert (x ≠ k) as Hne by (intros ->; congruence).
  rewrite (insert_equivalent _ m1 x w m2 k v); [done| |  |].
  - eapply Forall_impl; [exact Hfront|]. intros e He. simpl in He.
    apply compare_helper_true in He as (i & j & Hi & Hj & Hlt).
    rewrite Hx in Hj. injection Hj as <-.
    apply compare_helper_true. exists i, (index_ s).
    split_and!; [|by rewrite lookup_insert_eq|done].
    rewrite lookup_insert_ne; [done|]. intros Heq.
    rewrite Heq in Hk. congruence.
  - rewrite (compare_helper_Some _ x k (index_ s) (index_ s)).
    + unfold Compare. by rewrite Z.ltb_irrefl.
    + by rewrite lookup_insert_ne.
    + by rewrite lookup_insert_eq.
  - rewrite (compare_helper_Some _ k x (index_ s) (index_ s)).
    + unfold Compare. by rewrite Z.ltb_irrefl.
    + by rewrite lookup_insert_eq.
    + by rewrite lookup_insert_ne.
Qed.
End further_properties.

(** * Further properties of [swap] *)

Section swap_again.
Context {Key : Type} `{Countable Key} {T : Type}.
Implicit Types (h : gmap nat (two_maps.object Key T)) (p q : nat).

(** X14.  [swap] is its own inverse and does not depend on which of the
    two objects it is called on: swapping a second time gives back the
    memory as it was, comparator pointers included.  It never moves
    [index_]: each object keeps its own counter while its ledger and its
    entries go to the other. *)
Theorem swap_twice_restores p q h h' :
  two_maps.swap p q h = Some h' →
  two_maps.swap p q h' = Some h ∧
  two_maps.swap q p h = Some h' ∧
  two_maps.index_ <$> h' !! p = two_maps.index_ <$> h !! p ∧
  two_maps.index_ <$> h' !! q = two_maps.index_ <$> h !! q ∧
  two_maps.keys_ <$> h' !! p = two_maps.keys_ <$> h !! q ∧
  two_maps.map_ <$> h' !! p = two_maps.map_ <$> h !! q.
Proof.
  unfold two_maps.swap.
  destruct (h !! p) as [[Ka ca ma ea ia]|] eqn:Hp; [|done].
  destruct (h !! q) as [[Kb cb mb eb ib]|] eqn:Hq; [|done].
  simpl. destruct (decide (p = q)) as [->|Hne].
  - intros [= <-]. rewrite Hp. simpl. rewrite decide_True by done.
    rewrite Hp in Hq. by simplify_eq.
  - assert (q ≠ p) as Hne' by (by intros ->).
    intros [= <-]. rewrite (lookup_insert_ne _ q p) by done.
    rewrite !lookup_insert_eq. simpl. split_and!; try done.
    + f_equal. apply map_eq. intros i.
      destruct (decide (i = q)) as [->|Hiq].
      { by rewrite lookup_insert_eq. }
      rewrite lookup_insert_ne by done.
      destruct (decide (i = p)) as [->|Hip].
      { by rewrite lookup_insert_eq. }
      by rewrite !lookup_insert_ne by done.
    + f_equal. rewrite decide_False by done.
      by apply insert_insert_ne.
Qed.
End swap_again.

(** * The scenario of the specification, evaluated *)

Lemma insertion_order_of_distinct_keys_witness :
  ∃ s : ordered_map.t string Z,
    ordered_map.insert_each
      [("b", 1%Z); ("a", 2%Z); ("b", 9%Z); ("c", 3%Z)] ordered_map.new
    = Some s ∧
    ordered_map.entries s = [("b", 1%Z); ("a", 2%Z); ("c", 3%Z)].
Proof.
  destruct (insertion_order_of_distinct_keys
              [("b", 1%Z); ("a", 2%Z); ("b", 9%Z); ("c", 3%Z)])
    as (s & Hs & Hentries & _); [vm_compute; reflexivity|].
  exists s. split; [exact Hs|exact Hentries].
Defined.


Lemma reinsertion_goes_last_witness :
  ∃ s2 : ordered_map.t string Z,
    ordered_map.insert ("a", 2%Z) scenario.bc = Some (s2, (2, true)) ∧
    ordered_map.entries s2 = [("b", 1%Z); ("c", 3%Z); ("a", 2%Z)] ∧
    ordered_map.keys_ s2 !! "a" = Some 3%Z.
Proof.
  destruct (reinsertion_goes_last "" 0%Z scenario.insert3 [] "a" 2%Z
              scenario.bac 1%Z scenario.bc 1 scenario.bc)
    as (_ & _ & s2 & Hinsert & Hentries & Hnumber & _);
    [vm_compute; reflexivity..|].
  exists s2. split_and!; [exact Hinsert|exact Hentries|exact Hnumber].
Defined.

Lemma duplicate_insertion_consumes_number_witness :
  ordered_map.insert ("a", 9%Z) scenario.bac
  = Some (ordered_map.mk (ordered_map.keys_ scenario.bac)
            (ordered_map.map_ scenario.bac) 4%Z, (1, false)) ∧
  ordered_map.keys_ scenario.bac !! "a" = Some 1%Z.
Proof.
  destruct (duplicate_insertion_consumes_number "" 0%Z scenario.insert3
              scenario.bac "a" 1%Z 9%Z)
    as ((pos & w & _ & Hinsert & _) & Hnumber & _);
    [vm_compute; reflexivity..|].
  split; [|exact Hnumber].
  vm_compute. reflexivity.
Defined.

Lemma keys_matches_iteration_witness :
  ordered_map.keys "" scenario.bca = Some ["b"; "c"; "a"].
Proof.
  apply (keys_matches_iteration "" 0%Z [("b", 1%Z); ("a", 2%Z); ("c", 3%Z)]
           [ordered_map.Erase "a"; ordered_map.Insert ("a", 2%Z)]
           scenario.bac scenario.bca); vm_compute; reflexivity.
Defined.

Lemma clear_keeps_counter_witness :
  ordered_map.keys_ (ordered_map.clear scenario.bac) = ∅ ∧
  ordered_map.index_ (ordered_map.clear scenario.bac) = 3%Z ∧
  scenario.run [ordered_map.Subscript "z"] (ordered_map.clear scenario.bac)
  = Some scenario.z ∧
  (2 < 3)%Z.
Proof.
  destruct (clear_keeps_counter "" 0%Z scenario.insert3 []
              [ordered_map.Subscript "z"] scenario.bac scenario.bac
              scenario.z)
    as (Hkeys & _ & Hindex & _ & Hnew); [vm_compute; reflexivity..|].
  split_and!; [exact Hkeys|exact Hindex|vm_compute; reflexivity|].
  apply (Hnew "c" 2%Z "z" 3%Z); vm_compute; reflexivity.
Defined.

Lemma swap_crosses_comparators_witness :
  ¬ two_maps.own_ledger 0 (default ∅ (two_maps.swap 0 1 scenario.two)) ∧
  two_maps.find 1 "x" (default ∅ (two_maps.swap 0 1 scenario.two)) = None.
Proof.
  destruct (swap_crosses_comparators 0 1 scenario.two)
    as (a & b & h' & a' & b' & _ & _ & Hswap & _ & _ & _ & _ & _ & _ & _ & _
        & _ & _ & _ & _ & Hnot & _).
  - discriminate.
  - split; vm_compute; reflexivity.
  - split; vm_compute; reflexivity.
  - split; [rewrite Hswap; exact Hnot|vm_compute; reflexivity].
Defined.

Lemma scenario_two_built :
  two_maps.insert 0 ("x", 7%Z) (two_maps.construct 1 (two_maps.construct 0 ∅))
  = Some (scenario.two, (0, true)).
Proof. vm_compute. reflexivity. Qed.

(** C3.  The container holds "b" and nothing else; [keys_] and [map_]
    correspond.  Every search for a key that is not there makes
    [compare_helper] dereference the failed lookup of that key. *)
Theorem search_for_missing_key_undefined :
  scenario.run [ordered_map.Insert ("b", 1%Z)] ordered_map.new
  = Some scenario.b ∧
  dom (ordered_map.keys_ scenario.b)
  = list_to_set (ordered_map.map_ scenario.b).*1 ∧
  ordered_map.keys_ scenario.b !! "missing" = None ∧
  compare_helper (ordered_map.keys_ scenario.b) "b" "missing" = None ∧
  ordered_map.find scenario.b "missing" = None ∧
  ordered_map.count scenario.b "missing" = None ∧
  ordered_map.at_ scenario.b "missing" = None ∧
  ordered_map.lower_bound scenario.b "missing" = None ∧
  ordered_map.upper_bound scenario.b "missing" = None ∧
  ordered_map.equal_range scenario.b "missing" = None ∧
  ordered_map.erase "missing" scenario.b = None ∧
  scenario.run [ordered_map.Insert ("b", 1%Z); ordered_map.Find "missing"]
    ordered_map.new = None.
Proof. split_and!; vm_compute; reflexivity. Qed.

(** C4.  At the end of the scenario [keys()] is ["b"; "c"; "a"], and
    [at("missing")] does not throw [std::out_of_range]: its search reaches
    the comparator with the missing key.  [at] does throw on the empty
    container, where nothing is compared. *)
Theorem at_missing_in_scenario :
  scenario.run
    (scenario.insert3 ++
     [ordered_map.Erase "a"; ordered_map.Insert ("a", 2%Z)])
    ordered_map.new = Some scenario.bca ∧
  ordered_map.keys "" scenario.bca = Some ["b"; "c"; "a"] ∧
  ordered_map.at_ scenario.bca "missing" = None ∧
  ordered_map.at_ scenario.bca "missing" ≠ Some (inl out_of_range) ∧
  ordered_map.at_ scenario.bca "c" = Some (inr 3%Z) ∧
  ordered_map.at_ (ordered_map.new : ordered_map.t string Z) "missing"
  = Some (inl out_of_range).
Proof. split_and!; try (vm_compute; reflexivity). discriminate. Qed.

(** C5.  "a" is erased from the container that holds "b", "a", "c".
    [find("a")] afterwards does not return [end()]: "b" is still stored, and
    comparing it with "a" dereferences the failed lookup of "a". *)
Theorem find_after_erase_undefined :
  ordered_map.erase "a" scenario.bac = Some (scenario.bc, 1) ∧
  ordered_map.keys_ scenario.bc !! "a" = None ∧
  ordered_map.find scenario.bc "a" = None ∧
  ordered_map.find scenario.bc "a"
  ≠ Some (length (ordered_map.entries scenario.bc)).
Proof. split_and!; try (vm_compute; reflexivity). discriminate. Qed.

(** * The further properties, evaluated *)

Lemma compare_helper_strict_total_order_witness :
  compare_helper (ordered_map.keys_ scenario.bca) "c" "a" = Some true ∨
  compare_helper (ordered_map.keys_ scenario.bca) "a" "c" = Some true.
Proof.
  destruct (compare_helper_strict_total_order "" 0%Z
              (scenario.insert3 ++
               [ordered_map.Erase "a"; ordered_map.Insert ("a", 2%Z)])
              scenario.bca)
    as (_ & _ & _ & Htotal); [vm_compute; reflexivity..|].
  apply Htotal; [| |discriminate];
    apply (bool_decide_unpack _); vm_compute; exact I.
Defined.

Lemma iteration_follows_sequence_numbers_witness :
  ordered_map.index_ scenario.bca = 4%Z ∧
  (0 < 2 ↔ compare_helper (ordered_map.keys_ scenario.bca) "b" "a"
           = Some true).
Proof.
  destruct (iteration_follows_sequence_numbers "" 0%Z
              (scenario.insert3 ++
               [ordered_map.Erase "a"; ordered_map.Insert ("a", 2%Z)])
              scenario.bca)
    as (Hpos & _ & _ & Hindex); [vm_compute; reflexivity..|].
  split; [exact Hindex|].
  apply (Hpos 0 2 "b" "a"); vm_compute; reflexivity.
Defined.

Lemma lookup_of_stored_key_witness :
  ordered_map.at_ scenario.bca "c" = Some (inr 3%Z).
Proof.
  destruct (lookup_of_stored_key "" 0%Z
              (scenario.insert3 ++
               [ordered_map.Erase "a"; ordered_map.Insert ("a", 2%Z)])
              scenario.bca "c" 3%Z)
    as [Hat _]; [vm_compute; reflexivity..|].
  apply Hat. apply (bool_decide_unpack _). vm_compute. exact I.
Defined.

Lemma lookup_of_missing_key_witness :
  ordered_map.find scenario.b "missing" = None ∧
  ordered_map.at_ (ordered_map.new : ordered_map.t string Z) "missing"
  = Some (inl out_of_range).
Proof.
  destruct (lookup_of_missing_key scenario.b "missing")
    as (Hfind & _); [vm_compute; reflexivity|].
  destruct (lookup_of_missing_key
              (ordered_map.new : ordered_map.t string Z) "missing")
    as (_ & _ & Hat & _); [vm_compute; reflexivity|].
  split; [exact Hfind|exact Hat].
Defined.

Lemma insert_then_find_witness :
  ∃ (s' : ordered_map.t string Z) pos,
    ordered_map.insert ("d", 4%Z) scenario.bac = Some (s', (pos, true)) ∧
    ordered_map.find s' "d" = Some pos ∧
    ordered_map.at_ s' "d" = Some (inr 4%Z).
Proof.
  destruct (insert_then_find "" 0%Z scenario.insert3 scenario.bac "d" 4%Z)
    as (s' & pos & b & w & Hins & _ & Hfind & Hat & [_ Hb] & Htrue & _);
    [vm_compute; reflexivity..|].
  rewrite Hb in Hins, Htrue by (vm_compute; reflexivity).
  destruct Htrue as [-> _]; [reflexivity|].
  exists s', pos. split_and!; [exact Hins|exact Hfind|exact Hat].
Defined.

Lemma subscript_then_at_witness :
  ∃ s' : ordered_map.t string Z,
    ordered_map.subscript 0%Z "d" scenario.bac = Some (s', 0%Z) ∧
    ordered_map.at_ s' "d" = Some (inr 0%Z).
Proof.
  destruct (subscript_then_at "" 0%Z scenario.insert3 scenario.bac "d")
    as (s' & v & Hsub & Hat & Hnew & _); [vm_compute; reflexivity..|].
  destruct Hnew as [-> _]; [vm_compute; reflexivity|].
  exists s'. split; [exact Hsub|exact Hat].
Defined.

Lemma insert_range_as_inserts_witness :
  ∃ s' : ordered_map.t string Z,
    ordered_map.insert_range [("a", 9%Z); ("d", 4%Z); ("d", 5%Z)]
      scenario.bac = Some s' ∧
    ordered_map.entries s'
    = [("b", 1%Z); ("a", 2%Z); ("c", 3%Z); ("d", 4%Z)].
Proof.
  destruct (insert_range_as_inserts "" 0%Z scenario.insert3 scenario.bac
              [("a", 9%Z); ("d", 4%Z); ("d", 5%Z)])
    as (s' & Hrange & _ & Hentries); [vm_compute; reflexivity..|].
  exists s'. split; [exact Hrange|].
  rewrite Hentries. vm_compute. reflexivity.
Defined.

Lemma erase_by_iterator_or_key_witness :
  ordered_map.erase_pos 1 scenario.bac = Some (scenario.bc, 1) ∧
  ordered_map.erase "a" scenario.bac = Some (scenario.bc, 1).
Proof.
  destruct (erase_by_iterator_or_key "" 0%Z scenario.insert3 scenario.bac
              1 "a" 2%Z)
    as (Hpos & Hkey & _); [vm_compute; reflexivity..|].
  split; (etransitivity; [eassumption|vm_compute; reflexivity]).
Defined.

Lemma erase_range_removes_range_witness :
  ordered_map.erase_range 0 3 scenario.bac
  = Some (ordered_map.clear scenario.bac, 0).
Proof.
  destruct (erase_range_removes_range "" 0%Z scenario.insert3 scenario.bac
              0 3)
    as (_ & _ & Hall); [vm_compute; reflexivity..|].
  exact Hall.
Defined.

Lemma other_keys_untouched_witness :
  ordered_map.keys_ scenario.bc !! "c" = Some 2%Z ∧
  ordered_map.at_ scenario.bc "c" = Some (inr 3%Z).
Proof.
  destruct (other_keys_untouched "" 0%Z scenario.insert3 scenario.bac
              "a" "c" 2%Z 3%Z) with (s1 := scenario.bc)
    as (Hnumber & _ & Hat).
  - vm_compute. reflexivity.
  - vm_compute. reflexivity.
  - discriminate.
  - vm_compute. reflexivity.
  - apply (bool_decide_unpack _). vm_compute. exact I.
  - right. right. exists 1. vm_compute. reflexivity.
  - split; [exact Hnumber|exact Hat].
Defined.

Lemma clear_then_insert_witness :
  ∃ s' : ordered_map.t string Z,
    ordered_map.insert_each [("z", 1%Z); ("y", 2%Z)]
      (ordered_map.clear scenario.bac) = Some s' ∧
    ordered_map.entries s' = [("z", 1%Z); ("y", 2%Z)].
Proof.
  destruct (clear_then_insert "" 0%Z scenario.insert3 scenario.bac
              [("z", 1%Z); ("y", 2%Z)])
    as (s' & Hs' & Hentries & _); [vm_compute; reflexivity..|].
  exists s'. split; [exact Hs'|exact Hentries].
Defined.

Lemma repeated_subscript_advances_counter_witness :
  scenario.run (replicate 5 (ordered_map.Subscript "a")) scenario.bac
  = Some (ordered_map.mk (ordered_map.keys_ scenario.bac)
            (ordered_map.map_ scenario.bac) 8%Z).
Proof.
  apply (repeated_subscript_advances_counter "" 0%Z scenario.insert3
           scenario.bac "a" 1%Z 5); vm_compute; reflexivity.
Defined.

(** The wrapped container is one a caller can reach. *)
Lemma wrapped_counter_reachable :
  scenario.run
    (replicate (Z.to_nat (2 ^ 64 - 1)) (ordered_map.Subscript "a"))
    overflow.a
  = Some overflow.wrapped.
Proof.
  rewrite (repeated_subscript_advances_counter "" 0%Z
             [ordered_map.Insert ("a", 1%Z)] overflow.a "a" 0%Z);
    [|vm_compute; reflexivity..].
  rewrite Z2Nat.id by lia. reflexivity.
Qed.

Lemma insert_on_wrapped_counter_witness :
  ordered_map.insert ("b", 2%Z) overflow.wrapped
  = Some (ordered_map.mk {[ "a" := 0%Z; "b" := 0%Z ]} [("a", 1%Z)] 1%Z,
          (0, false)).
Proof.
  destruct (insert_on_wrapped_counter overflow.wrapped [] "a" 1%Z [] "b" 2%Z)
    as (Hinsert & _).
  - split.
    + repeat constructor.
    + repeat constructor. vm_compute. eexists. reflexivity.
  - reflexivity.
  - vm_compute. reflexivity.
  - vm_compute. reflexivity.
  - etransitivity; [exact Hinsert|vm_compute; reflexivity].
Defined.

Lemma swap_twice_restores_witness :
  two_maps.swap 0 1 (default ∅ (two_maps.swap 0 1 scenario.two))
  = Some scenario.two.
Proof.
  destruct (swap_twice_restores 0 1 scenario.two
              (default ∅ (two_maps.swap 0 1 scenario.two)))
    as (Hback & _); [vm_compute; reflexivity|].
  exact Hback.
Defined.
